(** * AviTab tile cache and rasterizer: a shallow embedding

    Sources embedded here:
    - [src/libimg/stitcher/TileCache.cpp]  (module [TileCache])
    - [src/libimg/Rasterizer.cpp]          (module [Rasterizer])

    The tile cache is modelled by explicit state passing.  Every member
    function of [img::TileCache] becomes a function on [State]; the calls
    the cache makes on its collaborators (the tile source, the platform
    layer, the image codec and the condition variable) are appended to a
    call log, so that "this call did not touch X" is a statement about the
    log.  Values that come from outside the cache (the reading of
    [std::chrono::steady_clock::now()], the outcome of
    [TileSource::loadTileImage]) are arguments of the function that
    consumes them. *)

From stdpp Require Import gmap strings pretty list fin_maps.
From Stdlib Require Import ZArith Lia SpecFloat.

Module TileCache.

(** ** Data model *)

(** [typedef std::tuple<int, int, int> TileCoords] : (x, y, zoom). *)
Definition TileCoords : Type := Z * Z * Z.

(** A reading of [std::chrono::steady_clock], in clock ticks. *)
Definition TimePoint : Type := Z.

(** The exceptions that travel through the cache.  The worker
    distinguishes [std::out_of_range] (the tile source was cancelled) from
    every other [std::exception]. *)
Inductive exception : Type :=
| runtime_error (what : string)
| out_of_range (what : string).

#[global] Instance exception_eq_dec : EqDecision exception.
Proof. solve_decision. Defined.

(** The outcome of a call that may leave by an exception. *)
Inductive outcome (A : Type) : Type :=
| Returned (a : A)
| Thrown (e : exception).
Arguments Returned {A} a.
Arguments Thrown {A} e.

(** The image layer, [src/libimg/Image.h], is a collaborator of the cache.
    An [Image] stands for the object behind a [std::shared_ptr<Image>]; the
    cache never looks at its pixels.  [loadImageFile] is what
    [Image::loadImageFile] does with the content of an existing file: it
    either fills the image or leaves by an exception.
    [encodedData] is what [Image::storeAndClearEncodedData] writes. *)
Class ImageLayer : Type := {
  Image : Type;
  FileData : Type;
  loadImageFile : FileData → outcome Image;
  encodedData : Image → FileData;
}.

(** The pure part of the [TileSource] interface.
    [checkAndCorrectTileCoordinates] takes its arguments by reference and may
    correct them; [None] is its [false]. *)
Class TileSource : Type := {
  checkAndCorrectTileCoordinates : TileCoords → option TileCoords;
  getFilePathForTile : TileCoords → string;
}.

(** What is declared outside [TileCache.cpp]: the eviction age of
    [TileCache.h] and the tick rate of the platform's steady clock. *)
Class Constants : Type := {
  CACHE_SECONDS : Z;
  ticks_per_second : Z;
}.

(** Calls on collaborators, in the order they are made. *)
Inductive Call : Type :=
| SrcCancelPendingLoads
| SrcResumeLoading
| SrcLoadTileImage (c : TileCoords)
| PlatFileExists (fileName : string)
| ImgLoadImageFile (fileName : string)
| ImgStoreAndClearEncodedData (fileName : string)
| CondNotifyOne.

#[global] Instance Call_eq_dec : EqDecision Call.
Proof. solve_decision. Defined.

(** What [TileSource::loadTileImage] did, as seen by the worker. *)
Inductive LoadResult `{ImageLayer} : Type :=
| Loaded (img : Image)
| LoadThrew (e : exception).

Section Cache.
Context `{IL : ImageLayer} `{TS : TileSource} `{K : Constants}.

(** [typedef std::tuple<std::shared_ptr<Image>, time_point> MemCacheEntry]. *)
Abbreviation MemCacheEntry := (Image * TimePoint)%type (only parsing).

(** The members of [img::TileCache], the files below the cache directory
    and the call log. *)
Record State : Type := mkState {
  cacheDir : string;
  memoryCache : gmap string MemCacheEntry;
  loadSet : gset TileCoords;
  errorSet : gset TileCoords;
  keepAlive : bool;
  disk : gmap string FileData;
  calls : list Call;
}.

Definition set_memoryCache (m : gmap string MemCacheEntry) (st : State) : State :=
  mkState (cacheDir st) m (loadSet st) (errorSet st) (keepAlive st) (disk st) (calls st).
Definition set_loadSet (s : gset TileCoords) (st : State) : State :=
  mkState (cacheDir st) (memoryCache st) s (errorSet st) (keepAlive st) (disk st) (calls st).
Definition set_errorSet (s : gset TileCoords) (st : State) : State :=
  mkState (cacheDir st) (memoryCache st) (loadSet st) s (keepAlive st) (disk st) (calls st).
Definition set_keepAlive (b : bool) (st : State) : State :=
  mkState (cacheDir st) (memoryCache st) (loadSet st) (errorSet st) b (disk st) (calls st).
Definition set_disk (d : gmap string FileData) (st : State) : State :=
  mkState (cacheDir st) (memoryCache st) (loadSet st) (errorSet st) (keepAlive st) d (calls st).
Definition log (c : Call) (st : State) : State :=
  mkState (cacheDir st) (memoryCache st) (loadSet st) (errorSet st) (keepAlive st) (disk st)
          (calls st ++ [c]).

(** [cacheDir + "/" + tileSource->getFilePathForTile(x, y, zoom)]. *)
Definition diskFileName (st : State) (c : TileCoords) : string :=
  cacheDir st +:+ "/" +:+ getFilePathForTile c.

(** ** Member functions *)

(** [TileCache::enterMemoryCache]: [std::map::insert] leaves the map alone
    when the key is already present. *)
Definition enterMemoryCache (now : TimePoint) (c : TileCoords) (img : Image)
    (st : State) : State :=
  match memoryCache st !! getFilePathForTile c with
  | Some _ => st
  | None => set_memoryCache (<[getFilePathForTile c := (img, now)]> (memoryCache st)) st
  end.

(** [TileCache::getFromMemory]: a hit stamps the entry with the current
    time. *)
Definition getFromMemory (now : TimePoint) (c : TileCoords) (st : State)
    : option Image * State :=
  match memoryCache st !! getFilePathForTile c with
  | None => (None, st)
  | Some (img, _) =>
      (Some img,
       set_memoryCache (<[getFilePathForTile c := (img, now)]> (memoryCache st)) st)
  end.

(** Modelled from the spec: [platform::fileExists] (the platform layer is
    not among the sources) tells whether the file system holds a file of
    that name. *)
Definition fileExists (fileName : string) (st : State) : bool :=
  bool_decide (is_Some (disk st !! fileName)).

(** Modelled from the spec: [Image::loadImageFile(fileName)]
    ([src/libimg/Image.cpp] is not among the sources) decodes the content
    of the named file into the image, or leaves by an exception. *)
Definition readImageFile (fileName : string) (st : State) : outcome Image :=
  match disk st !! fileName with
  | Some data => loadImageFile data
  | None => Thrown (runtime_error "Couldn't load image")
  end.

(** [TileCache::getFromDisk]. *)
Definition getFromDisk (now : TimePoint) (c : TileCoords) (st : State)
    : outcome (option Image) * State :=
  let fileName := diskFileName st c in
  let st1 := log (PlatFileExists fileName) st in
  if negb (fileExists fileName st) then (Returned None, st1)
  else
    let st2 := log (ImgLoadImageFile fileName) st1 in
    match readImageFile fileName st with
    | Thrown e => (Thrown e, st2)
    | Returned img => (Returned (Some img), enterMemoryCache now c img st2)
    end.

(** [TileCache::enqueue]. *)
Definition enqueue (c : TileCoords) (st : State) : State :=
  log CondNotifyOne (set_loadSet ({[c]} ∪ loadSet st) st).

(** [TileCache::getTile].  [Returned None] is the [nullptr] of a miss. *)
Definition getTile (now : TimePoint) (xyz : TileCoords) (st : State)
    : outcome (option Image) * State :=
  match checkAndCorrectTileCoordinates xyz with
  | None => (Thrown (runtime_error "Invalid coordinates in getTile"), st)
  | Some c =>
      if decide (c ∈ errorSet st) then (Thrown (runtime_error "Corrupt tile"), st)
      else
        match getFromMemory now c st with
        | (Some img, st1) => (Returned (Some img), st1)
        | (None, st1) =>
            match getFromDisk now c st1 with
            | (Thrown e, st2) => (Thrown e, st2)
            | (Returned (Some img), st2) => (Returned (Some img), st2)
            | (Returned None, st2) => (Returned None, enqueue c st2)
            end
        end
  end.

(** Modelled from the spec: [Image::storeAndClearEncodedData]
    ([src/libimg/Image.cpp] is not among the sources) writes the encoded
    bytes of the image to the named file and drops them from the image. *)
Definition storeAndClearEncodedData (fileName : string) (img : Image)
    (st : State) : State :=
  log (ImgStoreAndClearEncodedData fileName)
      (set_disk (<[fileName := encodedData img]> (disk st)) st).

(** [TileCache::loadAndCacheTile].  [result] is what
    [tileSource->loadTileImage(x, y, zoom)] did; [now] is the clock reading
    taken by [enterMemoryCache]. *)
Definition loadAndCacheTile (result : LoadResult) (now : TimePoint)
    (c : TileCoords) (st : State) : State :=
  let st1 := log (SrcLoadTileImage c) st in
  match result with
  | LoadThrew (out_of_range _) => st1
  | LoadThrew (runtime_error _) => set_errorSet ({[c]} ∪ errorSet st1) st1
  | Loaded img =>
      let fileName := getFilePathForTile c in
      storeAndClearEncodedData (cacheDir st1 +:+ "/" +:+ fileName) img
        (enterMemoryCache now c img st1)
  end.

(** [std::chrono::duration_cast<std::chrono::seconds>(diff).count()]:
    whole seconds, rounded towards zero. *)
Definition duration_seconds (diff : Z) : Z := Z.quot diff ticks_per_second.

(** The test of [flushCache] on one entry. *)
Definition expired (now : TimePoint) (e : MemCacheEntry) : Prop :=
  (CACHE_SECONDS ≤ duration_seconds (now - e.2))%Z.

#[global] Instance expired_dec now e : Decision (expired now e).
Proof. unfold expired. apply _. Defined.

(** [TileCache::flushCache]: erase every expired entry. *)
Definition flushCache (now : TimePoint) (st : State) : State :=
  set_memoryCache (filter (λ kv, ¬ expired now kv.2) (memoryCache st)) st.

(** The order of [std::tuple<int, int, int>]. *)
Definition coords_lt (a b : TileCoords) : bool :=
  let '(ax, ay, az) := a in
  let '(bx, by_, bz) := b in
  if (ax <? bx)%Z then true
  else if (bx <? ax)%Z then false
  else if (ay <? by_)%Z then true
  else if (by_ <? ay)%Z then false
  else (az <? bz)%Z.

(** Modelled from the spec: [loadSet.begin()].  [TileCache.h], which
    declares the container, is not among the sources; the spec's data model
    orders [TileCoords] lexicographically, and the first element of an
    ordered set is its least one. *)
Definition loadSet_begin (s : gset TileCoords) : option TileCoords :=
  foldr (λ c acc,
           match acc with
           | None => Some c
           | Some m => if coords_lt c m then Some c else Some m
           end) None (elements s).

(** The values one round of the worker takes from outside. *)
Record WorkerInputs : Type := {
  nowCheck : TimePoint;      (* read by getFromMemory *)
  loadResult : LoadResult;   (* outcome of loadTileImage *)
  nowEnter : TimePoint;      (* read by enterMemoryCache *)
  nowFlush : TimePoint;      (* read by flushCache *)
}.

(** The part of a round of [loadLoop] that handles the dequeued coordinate:
    [if (!getFromMemory(x, y, zoom)) loadAndCacheTile(x, y, zoom)]. *)
Definition processCoords (w : WorkerInputs) (c : TileCoords) (st : State) : State :=
  match getFromMemory (nowCheck w) c st with
  | (Some _, st1) => st1
  | (None, st1) => loadAndCacheTile (loadResult w) (nowEnter w) c st1
  end.

(** One round of the [while (keepAlive)] loop of [TileCache::loadLoop],
    from the return of [wait_for] on. *)
Definition loadLoopBody (w : WorkerInputs) (st : State) : State :=
  if negb (keepAlive st) then st
  else
    match loadSet_begin (loadSet st) with
    | None => flushCache (nowFlush w) st
    | Some c =>
        let st1 := log SrcResumeLoading (set_loadSet (loadSet st ∖ {[c]}) st) in
        flushCache (nowFlush w) (processCoords w c st1)
    end.

(** [getTile] called once for each clock reading of [nows], in a row. *)
Definition getTile_repeat (nows : list TimePoint) (xyz : TileCoords)
    (st : State) : State :=
  foldl (λ s now, (getTile now xyz s).2) st nows.

(** [TileCache::hasWork]. *)
Definition hasWork (st : State) : bool :=
  if negb (keepAlive st) then true
  else negb (bool_decide (loadSet st = ∅)).

(** [TileCache::cancelPendingRequests]. *)
Definition cancelPendingRequests (st : State) : State :=
  set_loadSet ∅ (set_errorSet ∅ (log SrcCancelPendingLoads st)).

(** [TileCache::purge]. *)
Definition purge (st : State) : State :=
  set_memoryCache ∅ (cancelPendingRequests st).

(** [TileCache::~TileCache], up to the join of the worker. *)
Definition shutdown (st : State) : State :=
  log CondNotifyOne (log SrcCancelPendingLoads (set_keepAlive false st)).

End Cache.

Arguments State {IL}.
Arguments WorkerInputs {IL}.

End TileCache.

Module Rasterizer.
Import TileCache.

(** ** The current-page slot of [img::Rasterizer]

    A [fz_display_list] is identified by the number of the allocation that
    made it, so that two lists are the same exactly when they are the same
    allocation.  The calls on the fitz library that create and release
    display lists are logged in order; which lists are live at a point of
    the execution is a function of the log up to that point. *)
Definition DisplayList : Type := nat.

Inductive FzCall : Type :=
| FzNewDisplayListFromPageNumber (page : Z) (l : DisplayList)
| FzDropDisplayList (l : DisplayList).

(** The members of [img::Rasterizer] that [loadPage] and
    [freeCurrentPage] use; [currentPageList = None] is [nullptr]. *)
Record State : Type := mkState {
  totalPages : Z;
  currentPageNum : Z;
  currentPageList : option DisplayList;
  allocations : nat;
  fitz : list FzCall;
}.

(** Modelled from the spec: the state after [Rasterizer::Rasterizer]
    ([Rasterizer.h], which initialises the members, is not among the
    sources): no page is live, nothing was allocated yet. *)
Definition initial (pages firstPageNum : Z) : State :=
  mkState pages firstPageNum None 0 [].

(** [Rasterizer::freeCurrentPage]. *)
Definition freeCurrentPage (st : State) : State :=
  match currentPageList st with
  | Some l =>
      mkState (totalPages st) (currentPageNum st) None (allocations st)
              (fitz st ++ [FzDropDisplayList l])
  | None => st
  end.

(** What [fz_new_display_list_from_page_number] does: it returns a new
    list, or throws inside [fz_try] with a message. *)
Inductive FzOutcome : Type :=
| FzOk
| FzCaught (message : string).

(** [Rasterizer::loadPage]. *)
Definition loadPage (fz : FzOutcome) (page : Z) (st : State) : outcome unit * State :=
  if bool_decide (page = currentPageNum st) && bool_decide (currentPageList st ≠ None)
  then (Returned (), st)
  else
    let st1 := freeCurrentPage st in
    match fz with
    | FzOk =>
        let l := allocations st1 in
        (Returned (),
         mkState (totalPages st1) page (Some l) (S (allocations st1))
                 (fitz st1 ++ [FzNewDisplayListFromPageNumber page l]))
    | FzCaught message =>
        (Thrown (runtime_error ("Cannot parse page: " +:+ message)), st1)
    end.

(** [Rasterizer::loadTile], as far as the page slot goes: [loadPage(page)]
    comes first, and nothing after it assigns [currentPageList] or
    [currentPageNum].  [render] is the outcome of the drawing that follows
    (the pixmap, the draw device and the run of the display list). *)
Definition loadTile {Img : Type} (fz : FzOutcome) (render : outcome Img)
    (page : Z) (st : State) : outcome Img * State :=
  match loadPage fz page st with
  | (Thrown e, st1) => (Thrown e, st1)
  | (Returned _, st1) => (render, st1)
  end.

(** [Rasterizer::~Rasterizer], as far as the page slot goes. *)
Definition destroy (st : State) : State := freeCurrentPage st.

(** The lists that are live after a log of fitz calls. *)
Definition live_step (s : gset DisplayList) (c : FzCall) : gset DisplayList :=
  match c with
  | FzNewDisplayListFromPageNumber _ l => {[l]} ∪ s
  | FzDropDisplayList l => s ∖ {[l]}
  end.

Definition live (calls : list FzCall) : gset DisplayList :=
  foldl live_step ∅ calls.

(** At most one list is live at every point of the log. *)
Definition at_most_one_live (calls : list FzCall) : Prop :=
  ∀ before, before `prefix_of` calls → size (live before) ≤ 1.

(** The page slot owns exactly the live lists, at most one list was live
    at every earlier point, and list numbers in use are below the
    allocation count. *)
Definition slot_owns_live (st : State) : Prop :=
  live (fitz st) = option_to_set (currentPageList st) ∧
  at_most_one_live (fitz st) ∧
  (∀ l, currentPageList st = Some l → l < allocations st).

(** The operations a client can perform on a rasterizer. *)
Inductive Op : Type :=
| OpLoadTile (fz : FzOutcome) (render : outcome unit) (page : Z)
| OpFreeCurrentPage.

Definition step (st : State) (o : Op) : State :=
  match o with
  | OpLoadTile fz render page => (loadTile fz render page st).2
  | OpFreeCurrentPage => freeCurrentPage st
  end.

Definition run (ops : list Op) (st : State) : State := foldl step st ops.

End Rasterizer.

(** ** A concrete tile source, image layer and cache state

    A small slippy-map source in the manner of the online map sources: the
    column wraps around the antimeridian, rows outside the grid are
    rejected, and tiles are stored as [zoom/x/y.png]. *)
Module Demo.
Import TileCache.

Definition wrapCoordinates (xyz : TileCoords) : option TileCoords :=
  let '(x, y, zoom) := xyz in
  if bool_decide (0 ≤ zoom ∧ 0 ≤ y ∧ y < 2 ^ zoom)%Z
  then Some ((x `mod` 2 ^ zoom)%Z, y, zoom)
  else None.

Definition tilePath (xyz : TileCoords) : string :=
  let '(x, y, zoom) := xyz in
  pretty zoom +:+ "/" +:+ pretty x +:+ "/" +:+ pretty y +:+ ".png".

#[export] Instance source : TileSource := {
  checkAndCorrectTileCoordinates := wrapCoordinates;
  getFilePathForTile := tilePath;
}.

(** Images are numbered; a file holds the number of an image, or bytes
    that do not decode. *)
#[export] Instance images : ImageLayer := {
  Image := nat;
  FileData := option nat;
  loadImageFile data :=
    match data with
    | Some img => Returned img
    | None => Thrown (runtime_error "Couldn't decode image")
    end;
  encodedData img := Some img;
}.

(** Thirty seconds, on a nanosecond clock. *)
#[export] Instance constants : Constants := {
  CACHE_SECONDS := 30;
  ticks_per_second := 1000000000;
}.

Definition second : Z := 1000000000.

(** A fresh cache over an empty directory. *)
Definition fresh : State :=
  mkState "cache" ∅ ∅ ∅ true ∅ [].

(** Tile (1,1,1) is in memory since second 2, tile (7,0,3) failed to load,
    tile (0,0,0) is on disk as a file that does not decode and tile
    (3,4,5) as one that does. *)
Definition busy : State :=
  mkState "cache"
          {[ "1/1/1.png" := (11, (2 * second)%Z) ]}
          {[ (2, 3, 4)%Z ]}
          {[ (7, 0, 3)%Z ]}
          true
          {[ "cache/0/0/0.png" := None; "cache/5/3/4.png" := Some 34 ]}
          [].

(** What a round of the worker reads from outside, for a given outcome
    of [loadTileImage]. *)
Definition demoInputs (result : LoadResult) : WorkerInputs :=
  {| nowCheck := (5 * second)%Z; loadResult := result;
     nowEnter := (6 * second)%Z; nowFlush := (7 * second)%Z |}.

(** Three tiles: page 3, page 3 again, then page 5. *)
Definition demoOps : list Rasterizer.Op :=
  [Rasterizer.OpLoadTile Rasterizer.FzOk (Returned ()) 3%Z;
   Rasterizer.OpLoadTile Rasterizer.FzOk (Returned ()) 3%Z;
   Rasterizer.OpLoadTile Rasterizer.FzOk (Returned ()) 5%Z].

End Demo.

(** ** Runs of the cache

    The threads around a cache act on it one call at a time: callers ask
    for tiles, cancel or purge, and the worker runs rounds of its loop.  A
    round is taken as a whole here, from the dequeue to the flush. *)
Module CacheRun.
Import TileCache.

Section Run.
Context `{IL : ImageLayer} `{TS : TileSource} `{K : Constants}.

(** Worker rounds in a row, one for each record of inputs. *)
Definition workerRounds (ws : list WorkerInputs) (st : State) : State :=
  foldl (λ s w, loadLoopBody w s) st ws.

(** The calls on a cache. *)
Inductive Op : Type :=
| OpGetTile (now : TimePoint) (xyz : TileCoords)
| OpWorkerRound (w : WorkerInputs)
| OpCancelPendingRequests
| OpPurge.

Definition step (st : State) (o : Op) : State :=
  match o with
  | OpGetTile now xyz => (getTile now xyz st).2
  | OpWorkerRound w => loadLoopBody w st
  | OpCancelPendingRequests => cancelPendingRequests st
  | OpPurge => purge st
  end.

Definition run (ops : list Op) (st : State) : State := foldl step st ops.

(** The calls that do not clear the error set. *)
Definition keepsErrors (o : Op) : bool :=
  match o with
  | OpGetTile _ _ | OpWorkerRound _ => true
  | OpCancelPendingRequests | OpPurge => false
  end.

(** A coordinate as [checkAndCorrectTileCoordinates] hands it back. *)
Definition corrected (c : TileCoords) : Prop :=
  ∃ xyz, checkAndCorrectTileCoordinates xyz = Some c.

(** The cache is keyed by corrected coordinates only: the pending and the
    errored coordinates, the coordinates the source was asked to load, and
    the artifact paths of the memory cache. *)
Definition keyedByCorrected (st : State) : Prop :=
  (∀ c, c ∈ loadSet st → corrected c) ∧
  (∀ c, c ∈ errorSet st → corrected c) ∧
  (∀ c, SrcLoadTileImage c ∈ calls st → corrected c) ∧
  (∀ path, is_Some (memoryCache st !! path) →
           ∃ c, corrected c ∧ path = getFilePathForTile c).

(** How often the tile source was asked to load a tile. *)
Definition isLoadCall (call : Call) : bool :=
  match call with
  | SrcLoadTileImage _ => true
  | _ => false
  end.

Definition loadCalls (cs : list Call) : nat :=
  length (filter (λ call, isLoadCall call = true) cs).

End Run.
End CacheRun.

(** ** Discipline of the display-list calls *)
Module RasterizerRun.
Import TileCache Rasterizer.

(** Every [fz_drop_display_list] in the log releases a list that is live
    at that point, and every [fz_new_display_list_from_page_number] makes a
    list that no earlier call of the log has made. *)
Definition disciplined (calls : list FzCall) : Prop :=
  ∀ before call, before ++ [call] `prefix_of` calls →
    match call with
    | FzDropDisplayList l => l ∈ live before
    | FzNewDisplayListFromPageNumber _ l =>
        ∀ page', FzNewDisplayListFromPageNumber page' l ∉ before
    end.

(** The lists made so far are numbered below the allocation count. *)
Definition numbered_below (n : nat) (calls : list FzCall) : Prop :=
  ∀ page l, FzNewDisplayListFromPageNumber page l ∈ calls → l < n.

(** [loadTile] for one and the same page. *)
Definition isTileOf (page : Z) (o : Op) : Prop :=
  match o with
  | OpLoadTile _ _ page' => page' = page
  | OpFreeCurrentPage => False
  end.

End RasterizerRun.

(** ** The document side of [img::Rasterizer]

    [Rasterizer::loadDocument], the page-size getters and the clip box of
    [Rasterizer::loadTile].  What fitz answers is given from outside.  An
    [fz_rect] holds four floats; the cache of page rectangles is a list
    of them and only its length and order matter here, so the type of
    rectangles is left open. *)
Module Document.
Import TileCache Rasterizer.

(** The calls on fitz; [FzLoadPage i loaded] tells whether
    [fz_load_page] came back with a page. *)
Inductive DocCall : Type :=
| FzOpenDocument (utf8Path : string)
| FzCountPages
| FzLoadPage (i : Z) (loaded : bool)
| FzBoundPage (i : Z)
| FzDropPage (i : Z)
| FzDropDocument.

#[global] Instance DocCall_eq_dec : EqDecision DocCall.
Proof. solve_decision. Defined.

(** What [fz_count_pages] does inside [fz_try]. *)
Inductive CountOutcome : Type :=
| Counted (n : Z)
| CountCaught (message : string).

Section Doc.
Context {Rect : Type}.

(** The answers of fitz: whether the document opens, how many pages it
    counts, and for each page number the bounds of the page, or [None]
    when [fz_load_page] returns a null page. *)
Record Fitz : Type := {
  openDocument : FzOutcome;
  countPages : CountOutcome;
  boundPage : Z → option Rect;
}.

(** The members [totalPages] and [pageRects], and the calls made. *)
Record Doc : Type := mkDoc {
  docPages : Z;
  pageRects : list Rect;
  docCalls : list DocCall;
}.

Definition docLog (call : DocCall) (d : Doc) : Doc :=
  mkDoc (docPages d) (pageRects d) (docCalls d ++ [call]).

(** Modelled from the spec: a rasterizer before [loadDocument]
    ([Rasterizer.h], which declares the members, is not among the
    sources): the vector of page rectangles is empty and no call has been
    made; the page count, which [loadDocument] overwrites, is taken as
    0. *)
Definition noDocument : Doc := mkDoc 0 [] [].

(** The loop [for (int i = 0; i < totalPages; i++)] of [loadDocument],
    with [n] rounds to go from page [i] on. *)
Fixpoint loadPages (fz : Fitz) (n : nat) (i : Z) (d : Doc) : outcome unit * Doc :=
  match n with
  | O => (Returned (), d)
  | S n' =>
      match boundPage fz i with
      | None =>
          (Thrown (runtime_error "Couldn't load page"),
           docLog FzDropDocument (docLog (FzLoadPage i false) d))
      | Some rect =>
          let d2 := docLog (FzBoundPage i) (docLog (FzLoadPage i true) d) in
          let d3 := mkDoc (docPages d2) (pageRects d2 ++ [rect]) (docCalls d2) in
          loadPages fz n' (i + 1)%Z (docLog (FzDropPage i) d3)
      end
  end.

(** [Rasterizer::loadDocument]. *)
Definition loadDocument (fz : Fitz) (utf8Path : string) (d : Doc) : outcome unit * Doc :=
  let d1 := docLog (FzOpenDocument utf8Path) d in
  match openDocument fz with
  | FzCaught message =>
      (Thrown (runtime_error ("Cannot open document: " +:+ message)), d1)
  | FzOk =>
      let d2 := docLog FzCountPages d1 in
      match countPages fz with
      | CountCaught message =>
          (Thrown (runtime_error ("Cannot count pages: " +:+ message)),
           docLog FzDropDocument d2)
      | Counted n =>
          loadPages fz (Z.to_nat n) 0
                    (mkDoc n (pageRects d2) (docCalls d2))
      end
  end.

(** [Rasterizer::getPageCount]. *)
Definition getPageCount (d : Doc) : Z := docPages d.

(** [pageRects.at(page)]: the [int] index is converted to [size_t], so a
    negative page is out of range like one past the end.  The text of the
    [std::out_of_range] is the standard library's own; the one here is a
    stand-in. *)
Definition pageRects_at (page : Z) (d : Doc) : outcome Rect :=
  if bool_decide (0 ≤ page)%Z then
    match pageRects d !! Z.to_nat page with
    | Some rect => Returned rect
    | None => Thrown (out_of_range "vector::at")
    end
  else Thrown (out_of_range "vector::at").

(** [Rasterizer::getPageWidth] and [Rasterizer::getPageHeight].  The
    product [width * zoomToScale(zoom)] is computed in floating point and
    converted to [int]; [scaled] stands for this function of the rectangle
    and the zoom. *)
Definition getPageSize (scaled : Rect → Z → Z) (page zoom : Z) (d : Doc) : outcome Z :=
  match pageRects_at page d with
  | Returned rect => Returned (scaled rect zoom)
  | Thrown e => Thrown e
  end.

(** The pages that are loaded and not dropped, and whether the document
    is open, after a log of calls. *)
Definition pages_step (s : gset Z) (call : DocCall) : gset Z :=
  match call with
  | FzLoadPage i true => {[i]} ∪ s
  | FzDropPage i => s ∖ {[i]}
  | _ => s
  end.

Definition loadedPages (calls : list DocCall) : gset Z := foldl pages_step ∅ calls.

Definition documentDrops (calls : list DocCall) : nat :=
  length (filter (λ call, call = FzDropDocument) calls).

End Doc.

Arguments Fitz : clear implicits.
Arguments Doc : clear implicits.

End Document.

(** ** The clip box of a tile *)
Module ClipBox.

(** An [fz_irect]. *)
Record fz_irect : Type := mkIRect { x0 : Z; y0 : Z; x1 : Z; y1 : Z }.

(** Arithmetic on [int]: a result outside the range of [int] is
    undefined behaviour and has no value here. *)
Definition int_range (z : Z) : Prop := (- 2 ^ 31 ≤ z < 2 ^ 31)%Z.

Definition as_int (z : Z) : option Z :=
  if bool_decide (int_range z) then Some z else None.

Definition int_mul (a b : Z) : option Z := as_int (a * b).
Definition int_add (a b : Z) : option Z := as_int (a + b).

(** The clip rectangle [Rasterizer::loadTile] computes for tile (x, y):
    the output image is made with [Image(tileSize, tileSize, 0)], so
    [outWidth] and [outHeight] are [tileSize].

    Modelled from the spec: [Image::getWidth] and [Image::getHeight]
    ([src/libimg/Image.cpp] is not among the sources) give back the width
    and height the image was constructed with. *)
Definition clipBox (tileSize x y : Z) : option fz_irect :=
  outStartX ← int_mul tileSize x;
  outStartY ← int_mul tileSize y;
  right ← int_add outStartX tileSize;
  bottom ← int_add outStartY tileSize;
  Some (mkIRect outStartX outStartY right bottom).

(** The pixels of an [fz_irect]: the left and top edges are in, the right
    and bottom edges are out. *)
Definition covers (b : fz_irect) (px py : Z) : Prop :=
  (x0 b ≤ px < x1 b ∧ y0 b ≤ py < y1 b)%Z.

End ClipBox.

(** ** More concrete inputs *)
Module DemoMore.
Import TileCache CacheRun Rasterizer Document Demo.

(** A source that keeps four neighbouring tiles in one file, so that
    different coordinates share an artifact path. *)
Definition atlasPath (xyz : TileCoords) : string :=
  let '(x, y, zoom) := xyz in
  pretty zoom +:+ "/" +:+ pretty (x / 2)%Z +:+ "/" +:+ pretty (y / 2)%Z +:+ ".png".

Definition atlas : TileSource := {|
  checkAndCorrectTileCoordinates := wrapCoordinates;
  getFilePathForTile := atlasPath;
|}.

(** Rounds of the worker that load image 5 or 6, fail, or are cancelled. *)
Definition loadsFive : WorkerInputs := demoInputs (Loaded 5).
Definition loadsSix : WorkerInputs := demoInputs (Loaded 6).
Definition failsWith500 : WorkerInputs :=
  demoInputs (LoadThrew (runtime_error "HTTP 500")).
Definition isCancelled : WorkerInputs :=
  demoInputs (LoadThrew (out_of_range "cancelled")).

(** A request, a round of the worker with a failing load, a flush-only
    round and another request. *)
Definition busyDay : list CacheRun.Op :=
  [CacheRun.OpGetTile (3 * second)%Z (9, 1, 3)%Z;
   CacheRun.OpWorkerRound failsWith500;
   CacheRun.OpWorkerRound loadsFive;
   CacheRun.OpGetTile (8 * second)%Z (15, 0, 3)%Z].

(** A document of three pages, given by width and height, and one whose
    second page does not load. *)
Definition threePages : Fitz (Z * Z) := {|
  openDocument := FzOk;
  countPages := Counted 3;
  boundPage i := [(595, 842); (842, 595); (100, 50)]%Z !! Z.to_nat i;
|}.

Definition brokenPage : Fitz (Z * Z) := {|
  openDocument := FzOk;
  countPages := Counted 3;
  boundPage i := if bool_decide (i = 0)%Z then Some (595, 842)%Z else None;
|}.

(** The width of a page at zoom 0, where the scale is one. *)
Definition widthAtZoom0 (rect : Z * Z) (zoom : Z) : Z := rect.1.

End DemoMore.

(** ** The page-size getters of [img::Rasterizer]

    [Rasterizer::getPageWidth], [Rasterizer::getPageHeight] and
    [Rasterizer::zoomToScale], with the arithmetic that
    [Document.getPageSize] leaves open written out.  The coordinates of
    an [fz_rect] are [float]s; [float] is taken to be IEEE binary32 and
    [double] binary64, each operation rounding to nearest-even in its own
    format, which is what [SpecFloat] defines.  [std::pow] belongs to the
    C library and is given from outside. *)
Module PageSize.
Import TileCache Rasterizer Document.

Definition float_prec : Z := 24.
Definition float_emax : Z := 128.
Definition double_prec : Z := 53.
Definition double_emax : Z := 1024.

(** [a - b] and [a * b] on [float]. *)
Definition float_sub : spec_float → spec_float → spec_float :=
  SFsub float_prec float_emax.
Definition float_mul : spec_float → spec_float → spec_float :=
  SFmul float_prec float_emax.

(** The conversions the compiler inserts: [int] to [float] in
    [width * zoomToScale(zoom)], [int] to [double] in
    [std::pow(M_SQRT2, zoom)], and [double] to [float] at the [return] of
    [zoomToScale]. *)
Definition int_to_float (n : Z) : spec_float :=
  binary_normalize float_prec float_emax n 0 false.
Definition int_to_double (n : Z) : spec_float :=
  binary_normalize double_prec double_emax n 0 false.
Definition double_to_float (d : spec_float) : spec_float :=
  match d with
  | S754_finite s m e => binary_round float_prec float_emax s m e
  | _ => d
  end.

Definition int_range (z : Z) : Prop := (- 2 ^ 31 ≤ z < 2 ^ 31)%Z.

(** [float] to [int], in [int width = rect.x1 - rect.x0] and at the
    [return] of the getters: the fraction is dropped, towards zero.  When
    the whole part does not fit an [int], or the float is an infinity or a
    NaN, the behaviour is undefined and there is no value here. *)
Definition float_to_int (f : spec_float) : option Z :=
  match f with
  | S754_zero _ => Some 0%Z
  | S754_finite s m e =>
      let magnitude :=
        if (0 <=? e)%Z then (Z.pos m * 2 ^ e)%Z else (Z.pos m / 2 ^ (- e))%Z in
      let value := if s then (- magnitude)%Z else magnitude in
      if bool_decide (int_range value) then Some value else None
  | _ => None
  end.

(** [M_SQRT2] of [<cmath>]: 1.41421356237309504880 as a [double]. *)
Definition M_SQRT2 : spec_float := S754_finite false 6369051672525773 (-52).

(** [std::pow] on [double]s. *)
Class Libm : Type := {
  pow : spec_float → spec_float → spec_float;
}.

(** An [fz_rect]. *)
Record fz_rect : Type := mkRect {
  x0 : spec_float;
  y0 : spec_float;
  x1 : spec_float;
  y1 : spec_float;
}.

Section Sizes.
Context `{L : Libm}.

(** [Rasterizer::zoomToScale]. *)
Definition zoomToScale (zoom : Z) : spec_float :=
  double_to_float (pow M_SQRT2 (int_to_double zoom)).

(** [Rasterizer::getPageWidth]. *)
Definition getPageWidth (page zoom : Z) (d : Doc fz_rect) : outcome (option Z) :=
  match pageRects_at page d with
  | Returned rect =>
      Returned (width ← float_to_int (float_sub (x1 rect) (x0 rect));
                float_to_int (float_mul (int_to_float width) (zoomToScale zoom)))
  | Thrown e => Thrown e
  end.

(** [Rasterizer::getPageHeight]. *)
Definition getPageHeight (page zoom : Z) (d : Doc fz_rect) : outcome (option Z) :=
  match pageRects_at page d with
  | Returned rect =>
      Returned (height ← float_to_int (float_sub (y1 rect) (y0 rect));
                float_to_int (float_mul (int_to_float height) (zoomToScale zoom)))
  | Thrown e => Thrown e
  end.

End Sizes.

(** *** The spec's formula *)

(** Following the spec's words: ⌊w · √2^zoom⌋ for a size [w] = num/den
    with [0 ≤ num], [0 < den] and [0 ≤ zoom].  As w·√2^zoom is
    √(num²·2^zoom)/den, this is ⌊√(num²·2^zoom)⌋ divided by [den] and
    rounded down. *)
Definition floor_times_sqrt2_pow (num den zoom : Z) : Z :=
  (Z.sqrt (num * num * 2 ^ zoom) / den)%Z.

(** The value of a [float] as a fraction with a positive denominator. *)
Definition float_fraction (f : spec_float) : option (Z * Z) :=
  match f with
  | S754_zero _ => Some (0, 1)%Z
  | S754_finite s m e =>
      let n := if s then Z.neg m else Z.pos m in
      Some (if (0 <=? e)%Z then (n * 2 ^ e, 1)%Z else (n, 2 ^ (- e))%Z)
  | _ => None
  end.

(** Following the spec's words: the scaled page dimensions
    ⌊page.width · √2^z⌋ and ⌊page.height · √2^z⌋, the width and the
    height being the differences of the rectangle's coordinates as they
    are, fraction included. *)
Definition specScaled (high low : spec_float) (zoom : Z) : option Z :=
  '(a, b) ← float_fraction high;
  '(c, d) ← float_fraction low;
  Some (floor_times_sqrt2_pow (a * d - c * b) (b * d) zoom).

Definition specPageWidth (rect : fz_rect) (zoom : Z) : option Z :=
  specScaled (x1 rect) (x0 rect) zoom.
Definition specPageHeight (rect : fz_rect) (zoom : Z) : option Z :=
  specScaled (y1 rect) (y0 rect) zoom.

(** *** Floats used in the statements *)

(** The [float] 2^k. *)
Definition pow2_float (k : Z) : spec_float := S754_finite false 8388608 (k - 23).

(** Twice a [float]. *)
Definition twice (f : spec_float) : spec_float :=
  match f with
  | S754_finite s m e =>
      if (e + 1 <=? float_emax - float_prec)%Z then S754_finite s m (e + 1)
      else S754_infinity s
  | _ => f
  end.

(** [s] is a positive normal [float] within one unit in its last place of
    √2^zoom: with [s] = m·2^e, (m - 1)·2^e ≤ √2^zoom ≤ (m + 1)·2^e, here
    squared and cleared of the power of two. *)
Definition within_one_ulp (s : spec_float) (zoom : Z) : bool :=
  match s with
  | S754_finite false m e =>
      bool_decide (digits2_pos m = 24%positive) &&
      bool_decide (2 * e ≤ zoom)%Z &&
      bool_decide ((Z.pos m - 1) ^ 2 ≤ 2 ^ (zoom - 2 * e) ≤ (Z.pos m + 1) ^ 2)%Z
  | _ => false
  end.

(** [s2] is twice [s], a positive [float] of exponent -103 or more. *)
Definition doubles (s s2 : spec_float) : bool :=
  match s, s2 with
  | S754_finite false m e, S754_finite false m2 e2 =>
      bool_decide (m2 = m ∧ e2 = (e + 1)%Z ∧ (-103 ≤ e)%Z)
  | _, _ => false
  end.

(** *** A concrete C library and document *)

(** The whole number a [double] holds, if it holds one. *)
Definition double_to_Z (d : spec_float) : option Z :=
  match d with
  | S754_zero _ => Some 0%Z
  | S754_finite s m e =>
      if (0 <=? e)%Z then Some ((if s then -1 else 1) * (Z.pos m * 2 ^ e))%Z
      else if (Z.pos m mod 2 ^ (- e) =? 0)%Z
           then Some ((if s then -1 else 1) * (Z.pos m / 2 ^ (- e)))%Z
           else None
  | _ => None
  end.

(** A [pow] that is correctly rounded where the rasterizer calls it: for
    a positive finite [x] = m·2^e and a whole [y] = n ≥ 0 it is the
    [double] nearest to m^n·2^(e·n).  Other arguments do not occur in
    [zoomToScale] at a zoom of zero or more and are answered with NaN. *)
Definition roundedPow (x y : spec_float) : spec_float :=
  match x, double_to_Z y with
  | S754_finite false m e, Some n =>
      if (0 <=? n)%Z
      then binary_normalize double_prec double_emax (Z.pos m ^ n) (e * n) false
      else S754_nan
  | _, _ => S754_nan
  end.

Definition exactLibm : Libm := {| pow := roundedPow |}.

(** An A4 page, 595.276 by 841.89 units, and a page of 13860 by 9800
    units. *)
Definition a4 : fz_rect :=
  mkRect (S754_zero false) (S754_zero false)
         (S754_finite false 9753002 (-14)) (S754_finite false 13793526 (-14)).

Definition poster : fz_rect :=
  mkRect (S754_zero false) (S754_zero false)
         (S754_finite false 14192640 (-10)) (S754_finite false 10035200 (-10)).

Definition twoSheets : Fitz fz_rect := {|
  openDocument := FzOk;
  countPages := Counted 2;
  boundPage i := [a4; poster] !! Z.to_nat i;
|}.

(** The rasterizer after [loadDocument] on these two pages. *)
Definition sheets : Doc fz_rect := (loadDocument twoSheets "sheets.pdf" noDocument).2.

End PageSize.

(** * Properties of the tile cache *)

Section CacheFacts.
Import TileCache.
Context `{IL : ImageLayer} `{TS : TileSource} `{K : Constants}.
Implicit Types (st : State) (c xyz : TileCoords) (now : TimePoint).

(** The setters touch one member each. *)
Lemma log_members call st :
  memoryCache (log call st) = memoryCache st ∧
  loadSet (log call st) = loadSet st ∧
  errorSet (log call st) = errorSet st ∧
  disk (log call st) = disk st ∧
  cacheDir (log call st) = cacheDir st.
Proof. by destruct st. Qed.

Lemma getFromMemory_miss now c st :
  memoryCache st !! getFilePathForTile c = None →
  getFromMemory now c st = (None, st).
Proof. intros Hmiss. unfold getFromMemory. by rewrite Hmiss. Qed.

Lemma getFromMemory_hit now c st img t :
  memoryCache st !! getFilePathForTile c = Some (img, t) →
  getFromMemory now c st =
    (Some img,
     set_memoryCache (<[getFilePathForTile c := (img, now)]> (memoryCache st)) st).
Proof. intros Hhit. unfold getFromMemory. by rewrite Hhit. Qed.

Lemma enterMemoryCache_absent now c img st :
  memoryCache st !! getFilePathForTile c = None →
  enterMemoryCache now c img st =
    set_memoryCache (<[getFilePathForTile c := (img, now)]> (memoryCache st)) st.
Proof. intros Hmiss. unfold enterMemoryCache. by rewrite Hmiss. Qed.

Lemma enterMemoryCache_present now c img st e :
  memoryCache st !! getFilePathForTile c = Some e →
  enterMemoryCache now c img st = st.
Proof. intros Hhit. unfold enterMemoryCache. by rewrite Hhit. Qed.

Lemma fileExists_true fileName st data :
  disk st !! fileName = Some data → fileExists fileName st = true.
Proof. intros Hfile. unfold fileExists. apply bool_decide_eq_true. by exists data. Qed.

Lemma fileExists_false fileName st :
  disk st !! fileName = None → fileExists fileName st = false.
Proof.
  intros Hfile. unfold fileExists. apply bool_decide_eq_false.
  rewrite Hfile. by intros [? ?].
Qed.

(** C1: after [purge] the memory cache, the load set and the error set are
    all empty, and the tile source has been told once to cancel its pending
    loads; the directory on disk is as it was. *)
Theorem purge_empties_cache_and_sets st :
  memoryCache (purge st) = ∅ ∧
  loadSet (purge st) = ∅ ∧
  errorSet (purge st) = ∅ ∧
  calls (purge st) = calls st ++ [SrcCancelPendingLoads] ∧
  disk (purge st) = disk st.
Proof. by destruct st. Qed.

(** C5: after [cancelPendingRequests] the load set and the error set are
    empty and the tile source has been told once to cancel its pending
    loads, while the memory cache is the very map it was: no entry added,
    removed or stamped anew. *)
Theorem cancelPendingRequests_keeps_memoryCache st :
  loadSet (cancelPendingRequests st) = ∅ ∧
  errorSet (cancelPendingRequests st) = ∅ ∧
  calls (cancelPendingRequests st) = calls st ++ [SrcCancelPendingLoads] ∧
  memoryCache (cancelPendingRequests st) = memoryCache st.
Proof. by destruct st. Qed.

(** C3: when the corrected coordinate is in the error set, [getTile] throws
    "Corrupt tile" and leaves the whole state as it found it: no entry of
    the memory cache is stamped, no call reaches the platform or the image
    layer (the call log is unchanged), and the load set is unchanged. *)
Theorem getTile_errored_fails_fast now xyz c st :
  checkAndCorrectTileCoordinates xyz = Some c →
  c ∈ errorSet st →
  getTile now xyz st = (Thrown (runtime_error "Corrupt tile"), st).
Proof.
  intros Hok Herr. unfold getTile. rewrite Hok.
  by rewrite decide_True.
Qed.

(** C10: entering an image under an artifact path that already has an
    entry leaves the memory cache as it was, be it through
    [enterMemoryCache] itself, through the disk read of [getFromDisk] or
    through a successful load of the worker: the entry keeps its image and
    its time stamp and the new pair is dropped. *)
Theorem enterMemoryCache_never_overwrites now c img st e :
  memoryCache st !! getFilePathForTile c = Some e →
  memoryCache (enterMemoryCache now c img st) = memoryCache st ∧
  memoryCache (getFromDisk now c st).2 = memoryCache st ∧
  memoryCache (loadAndCacheTile (Loaded img) now c st) = memoryCache st.
Proof.
  intros Hhit. split_and!.
  - by rewrite (enterMemoryCache_present _ _ _ _ e).
  - unfold getFromDisk.
    destruct (fileExists _ st); simpl; [|done].
    destruct (readImageFile _ st) as [img'|err]; simpl; [|done].
    by rewrite (enterMemoryCache_present _ _ _ _ e).
  - unfold loadAndCacheTile, storeAndClearEncodedData.
    by rewrite (enterMemoryCache_present _ _ _ _ e).
Qed.

(** A full miss: what [getTile] does when the coordinate is neither
    errored, nor in memory, nor on disk. *)
Lemma getTile_miss_step now xyz c st :
  checkAndCorrectTileCoordinates xyz = Some c →
  c ∉ errorSet st →
  memoryCache st !! getFilePathForTile c = None →
  disk st !! diskFileName st c = None →
  getTile now xyz st =
    (Returned None, enqueue c (log (PlatFileExists (diskFileName st c)) st)).
Proof.
  intros Hok Herr Hmem Hdisk. unfold getTile. rewrite Hok.
  rewrite decide_False by done.
  rewrite getFromMemory_miss by done.
  unfold getFromDisk. by rewrite fileExists_false.
Qed.

(** A miss leaves the conditions of a miss in place. *)
Lemma miss_conditions_stable c st :
  let st' := enqueue c (log (PlatFileExists (diskFileName st c)) st) in
  errorSet st' = errorSet st ∧ memoryCache st' = memoryCache st ∧
  disk st' = disk st ∧ diskFileName st' c = diskFileName st c ∧
  loadSet st' = {[c]} ∪ loadSet st.
Proof. by destruct st. Qed.

Lemma getTile_repeat_miss nows xyz c st :
  checkAndCorrectTileCoordinates xyz = Some c →
  c ∉ errorSet st →
  memoryCache st !! getFilePathForTile c = None →
  disk st !! diskFileName st c = None →
  nows ≠ [] →
  loadSet (getTile_repeat nows xyz st) = {[c]} ∪ loadSet st ∧
  (∀ c', SrcLoadTileImage c' ∈ calls (getTile_repeat nows xyz st) →
         SrcLoadTileImage c' ∈ calls st).
Proof.
  intros Hok. revert st.
  induction nows as [|now nows IH]; intros st Herr Hmem Hdisk Hne; [done|].
  unfold getTile_repeat; simpl.
  rewrite (getTile_miss_step now xyz c st) by done. simpl.
  destruct (miss_conditions_stable c st) as (He & Hm & Hd & Hn & Hl).
  set (st' := enqueue c (log (PlatFileExists (diskFileName st c)) st)) in *.
  assert (Hcalls : ∀ c', SrcLoadTileImage c' ∈ calls st' → SrcLoadTileImage c' ∈ calls st).
  { intros c'. subst st'. destruct st; simpl.
    rewrite !elem_of_app, !list_elem_of_singleton.
    intros [[Hin|Heq]|Heq]; [done|discriminate Heq..]. }
  destruct nows as [|now' nows'].
  - simpl. split; [done|]. exact Hcalls.
  - destruct (IH st') as [IHl IHc].
    + by rewrite He.
    + by rewrite Hm.
    + by rewrite Hd, Hn.
    + done.
    + fold (getTile_repeat (now' :: nows') xyz st').
      split.
      * rewrite IHl, Hl. by rewrite (assoc_L (∪)), (idemp_L (∪) {[c]}).
      * intros c' Hin. apply Hcalls, IHc, Hin.
Qed.

(** C7: for a coordinate that normalization accepts and that is neither in
    the error set, nor in the memory cache under its artifact path, nor on
    disk, [getTile] returns the empty result, puts the corrected coordinate
    into the load set and signals the worker; the only calls it makes are
    [fileExists] and [notify_one], so it does not call [loadTileImage].
    Any number K >= 1 of such calls in a row grows the load set by this
    one coordinate only, hence by at most one element, and none of them
    calls [loadTileImage]. *)
Theorem getTile_full_miss_enqueues_once now xyz c st :
  checkAndCorrectTileCoordinates xyz = Some c →
  c ∉ errorSet st →
  memoryCache st !! getFilePathForTile c = None →
  disk st !! diskFileName st c = None →
  (∃ st',
     getTile now xyz st = (Returned None, st') ∧
     loadSet st' = {[c]} ∪ loadSet st ∧
     calls st' = calls st ++ [PlatFileExists (diskFileName st c); CondNotifyOne] ∧
     memoryCache st' = memoryCache st ∧ errorSet st' = errorSet st ∧
     disk st' = disk st) ∧
  (∀ nows, nows ≠ [] →
     loadSet (getTile_repeat nows xyz st) = {[c]} ∪ loadSet st ∧
     size (loadSet (getTile_repeat nows xyz st)) ≤ S (size (loadSet st)) ∧
     (∀ c', SrcLoadTileImage c' ∈ calls (getTile_repeat nows xyz st) →
            SrcLoadTileImage c' ∈ calls st)).
Proof.
  intros Hok Herr Hmem Hdisk. split.
  - eexists. split; [by apply getTile_miss_step|].
    destruct st; simpl. by rewrite <- app_assoc.
  - intros nows Hne.
    destruct (getTile_repeat_miss nows xyz c st) as [Hl Hc]; try done.
    split_and!; [done| |done].
    rewrite Hl. rewrite size_union_alt, size_singleton.
    assert (size (loadSet st ∖ {[c]}) ≤ size (loadSet st)); [|lia].
    apply subseteq_size, subseteq_difference_l. done.
Qed.

(** C2: for a coordinate the worker has dequeued and goes on to load (its
    look into the memory cache found nothing under the artifact path), the
    outcome of [loadTileImage] decides: on [std::out_of_range], the signal
    of a cancelled load, the result is dropped and error set, memory cache,
    load set and disk stay as they were; on any other exception the
    coordinate is put into the error set and the memory cache stays as it
    was; on success the image enters the memory cache under the artifact
    path with the time read at that moment and its encoded bytes are
    written to [cacheDir + "/" + path]. *)
Theorem worker_load_outcomes (w : WorkerInputs) c st :
  memoryCache st !! getFilePathForTile c = None →
  let st' := processCoords w c st in
  match loadResult w with
  | LoadThrew (out_of_range _) =>
      errorSet st' = errorSet st ∧ memoryCache st' = memoryCache st ∧
      loadSet st' = loadSet st ∧ disk st' = disk st ∧
      calls st' = calls st ++ [SrcLoadTileImage c]
  | LoadThrew (runtime_error _) =>
      errorSet st' = {[c]} ∪ errorSet st ∧ memoryCache st' = memoryCache st ∧
      disk st' = disk st ∧
      calls st' = calls st ++ [SrcLoadTileImage c]
  | Loaded img =>
      memoryCache st' =
        <[getFilePathForTile c := (img, nowEnter w)]> (memoryCache st) ∧
      memoryCache st' !! getFilePathForTile c = Some (img, nowEnter w) ∧
      disk st' !! diskFileName st c = Some (encodedData img) ∧
      errorSet st' = errorSet st ∧
      calls st' = calls st ++
        [SrcLoadTileImage c; ImgStoreAndClearEncodedData (diskFileName st c)]
  end.
Proof.
  intros Hmiss st'. subst st'. unfold processCoords.
  rewrite getFromMemory_miss by done.
  unfold loadAndCacheTile.
  destruct (loadResult w) as [img|[what|what]].
  - unfold storeAndClearEncodedData.
    rewrite enterMemoryCache_absent by (by destruct st).
    destruct st as [dir mem ls es ka dk cs]; simpl in *.
    split_and!; try done.
    + by rewrite lookup_insert_eq.
    + unfold diskFileName; simpl. by rewrite lookup_insert_eq.
    + unfold diskFileName; simpl. by rewrite <- app_assoc.
  - by destruct st.
  - by destruct st.
Qed.

(** The coordinate the worker dequeues is one of the pending ones, and it
    finds none only when nothing is pending. *)
Lemma loadSet_begin_elem_of (s : gset TileCoords) c :
  loadSet_begin s = Some c → c ∈ s.
Proof.
  unfold loadSet_begin. rewrite <- elem_of_elements.
  generalize (elements s). intros l. revert c.
  induction l as [|x l IH]; intros c; simpl; [done|].
  destruct (foldr _ None l) as [m|]; [|intros [= <-]; by left].
  destruct (coords_lt x m); intros [= <-]; [by left|right; by apply IH].
Qed.

Lemma loadSet_begin_None (s : gset TileCoords) :
  loadSet_begin s = None ↔ s = ∅.
Proof.
  unfold loadSet_begin. rewrite <- (leibniz_equiv_iff s ∅), <- elements_empty_iff.
  destruct (elements s) as [|x l]; simpl; [done|].
  split; [|done].
  destruct (foldr _ None l) as [m|]; [by destruct (coords_lt x m)|done].
Qed.

(** A round of the worker with work pending: the dequeued coordinate
    leaves the load set, the source is resumed, the coordinate is
    processed and the cache is flushed. *)
Lemma loadLoopBody_dequeue (w : WorkerInputs) st c :
  keepAlive st = true →
  loadSet_begin (loadSet st) = Some c →
  c ∈ loadSet st ∧
  loadLoopBody w st =
    flushCache (nowFlush w)
      (processCoords w c
         (log SrcResumeLoading (set_loadSet (loadSet st ∖ {[c]}) st))).
Proof.
  intros Halive Hbegin. split; [by apply loadSet_begin_elem_of|].
  unfold loadLoopBody. by rewrite Halive, Hbegin.
Qed.

(** Whole seconds of a non-negative span reach the threshold exactly when
    the span does. *)
Lemma duration_seconds_threshold (diff : Z) :
  (0 < ticks_per_second)%Z → (0 ≤ diff)%Z →
  (CACHE_SECONDS ≤ duration_seconds diff)%Z ↔
  (CACHE_SECONDS * ticks_per_second ≤ diff)%Z.
Proof.
  intros Hpos Hdiff. unfold duration_seconds.
  rewrite Z.quot_div_nonneg by lia. split.
  - intros Hle. pose proof (Z.mul_div_le diff ticks_per_second Hpos). nia.
  - intros Hle. apply Z.div_le_lower_bound; lia.
Qed.

(** C6: at clock reading [now], [flushCache] keeps an entry whose time
    stamp is [t] if and only if [now - t] is less than [CACHE_SECONDS]
    seconds (and otherwise erases it); and the time stamp of an entry is
    set to the time of the call by every [getTile] that is answered from
    memory. *)
Theorem flushCache_retains_iff_young now st path img (t : TimePoint) :
  (0 < ticks_per_second)%Z →
  (t ≤ now)%Z →
  memoryCache st !! path = Some (img, t) →
  (memoryCache (flushCache now st) !! path = Some (img, t) ↔
     (now - t < CACHE_SECONDS * ticks_per_second)%Z) ∧
  (memoryCache (flushCache now st) !! path = None ↔
     ¬ (now - t < CACHE_SECONDS * ticks_per_second)%Z) ∧
  (∀ now' xyz c,
     checkAndCorrectTileCoordinates xyz = Some c →
     c ∉ errorSet st →
     getFilePathForTile c = path →
     ∃ st', getTile now' xyz st = (Returned (Some img), st') ∧
            memoryCache st' !! path = Some (img, now')).
Proof.
  intros Hpos Hmono Hentry.
  pose proof (duration_seconds_threshold (now - t) Hpos ltac:(lia)) as Hthr.
  split_and!.
  - destruct st; simpl in *. rewrite map_lookup_filter_Some. unfold expired. simpl.
    split; [intros [_ Hyoung]; lia | intros Hyoung; split; [done|lia]].
  - destruct st; simpl in *. rewrite map_lookup_filter_None. unfold expired. simpl.
    split.
    + intros [Hnone|Hall]; [congruence|].
      specialize (Hall _ Hentry). simpl in Hall.
      apply dec_stable in Hall. lia.
    + intros Hold. right. intros e He. rewrite Hentry in He.
      injection He as <-. simpl. intros Hne. apply Hne. lia.
  - intros now' xyz c Hok Herr <-.
    unfold getTile. rewrite Hok. rewrite decide_False by done.
    rewrite (getFromMemory_hit _ _ _ img t) by done.
    eexists. split; [done|]. destruct st; simpl. by rewrite lookup_insert_eq.
Qed.

(** C4 (amended): when the coordinate is not errored, not in memory, and
    its file is on disk, [getTile] never ends as a miss and never touches
    the load set.  If [loadImageFile] leaves by an exception, that
    exception leaves [getTile]; memory cache, load set and error set are as
    before.  If it returns, the image is entered into the memory cache with
    the time of the call and returned. *)
Theorem getTile_file_on_disk_is_not_a_miss now xyz c st data :
  checkAndCorrectTileCoordinates xyz = Some c →
  c ∉ errorSet st →
  memoryCache st !! getFilePathForTile c = None →
  disk st !! diskFileName st c = Some data →
  (getTile now xyz st).1 ≠ Returned None ∧
  loadSet (getTile now xyz st).2 = loadSet st ∧
  errorSet (getTile now xyz st).2 = errorSet st ∧
  calls (getTile now xyz st).2 =
    calls st ++ [PlatFileExists (diskFileName st c);
                 ImgLoadImageFile (diskFileName st c)] ∧
  match loadImageFile data with
  | Thrown e =>
      (getTile now xyz st).1 = Thrown e ∧
      memoryCache (getTile now xyz st).2 = memoryCache st
  | Returned img =>
      (getTile now xyz st).1 = Returned (Some img) ∧
      memoryCache (getTile now xyz st).2 =
        <[getFilePathForTile c := (img, now)]> (memoryCache st)
  end.
Proof.
  intros Hok Herr Hmem Hdisk. unfold getTile. rewrite Hok.
  rewrite decide_False by done.
  rewrite getFromMemory_miss by done.
  unfold getFromDisk, readImageFile.
  rewrite (fileExists_true _ _ data) by done. simpl.
  rewrite Hdisk.
  destruct (loadImageFile data) as [img|e]; simpl.
  - rewrite enterMemoryCache_absent by (by destruct st).
    destruct st; simpl. split_and!; try done. by rewrite <- app_assoc.
  - destruct st; simpl. split_and!; try done. by rewrite <- app_assoc.
Qed.

End CacheFacts.

(** * Properties of the rasterizer's page slot *)

Section RasterizerFacts.
Import TileCache Rasterizer.
Implicit Types (st : Rasterizer.State) (log : list FzCall).

Lemma live_snoc log call : live (log ++ [call]) = live_step (live log) call.
Proof. unfold live. by rewrite foldl_snoc. Qed.

Lemma prefix_snoc_cases {A} (before l : list A) (x : A) :
  before `prefix_of` l ++ [x] → before = l ++ [x] ∨ before `prefix_of` l.
Proof.
  intros [k Hk]. destruct k as [|y k _] using rev_ind.
  - left. by rewrite app_nil_r in Hk.
  - right. rewrite app_assoc in Hk.
    apply app_inj_tail in Hk as [-> _]. by exists k.
Qed.

Lemma at_most_one_live_nil : at_most_one_live [].
Proof.
  intros before ->%prefix_nil_inv.
  change (live []) with (∅ : gset DisplayList). rewrite size_empty. lia.
Qed.

Lemma at_most_one_live_snoc log call :
  at_most_one_live log →
  size (live (log ++ [call])) ≤ 1 →
  at_most_one_live (log ++ [call]).
Proof.
  intros Hlog Hnew before [->|Hpre]%prefix_snoc_cases; [done|by apply Hlog].
Qed.

Lemma slot_owns_live_initial pages firstPageNum :
  slot_owns_live (initial pages firstPageNum).
Proof.
  unfold slot_owns_live. split_and!; [done|apply at_most_one_live_nil|done].
Qed.

Lemma freeCurrentPage_spec st :
  slot_owns_live st →
  slot_owns_live (freeCurrentPage st) ∧
  currentPageList (freeCurrentPage st) = None ∧
  live (fitz (freeCurrentPage st)) = ∅ ∧
  allocations (freeCurrentPage st) = allocations st.
Proof.
  intros (Hlive & Hone & Hfresh). unfold freeCurrentPage.
  destruct (currentPageList st) as [l|] eqn:Hslot; simpl in *.
  - assert (Hempty : live (fitz st ++ [FzDropDisplayList l]) = ∅).
    { rewrite live_snoc, Hlive. simpl. apply difference_diag_L. }
    split_and!; try done. unfold slot_owns_live; simpl.
    split_and!; try done.
    apply at_most_one_live_snoc; [done|]. rewrite Hempty, size_empty. lia.
  - split_and!.
    + unfold slot_owns_live. rewrite Hslot. by split_and!.
    + done.
    + by rewrite Hlive.
    + done.
Qed.

Lemma loadPage_preserves fz page st :
  slot_owns_live st → slot_owns_live (loadPage fz page st).2.
Proof.
  intros Hinv. unfold loadPage.
  destruct (bool_decide (page = currentPageNum st) &&
            bool_decide (currentPageList st ≠ None)); [done|].
  destruct (freeCurrentPage_spec st Hinv) as ((Hlive & Hone & Hfresh) & Hnone & Hempty & Halloc).
  destruct fz as [|message]; simpl; [|by unfold slot_owns_live; split_and!].
  unfold slot_owns_live.
  assert (Hnew : live (fitz (freeCurrentPage st) ++
                   [FzNewDisplayListFromPageNumber page (allocations (freeCurrentPage st))])
                 = {[allocations (freeCurrentPage st)]}).
  { rewrite live_snoc, Hempty. simpl. apply (right_id_L ∅ (∪)). }
  split_and!; simpl.
  - done.
  - apply at_most_one_live_snoc; [done|]. by rewrite Hnew, size_singleton.
  - intros l [= <-]. lia.
Qed.

Lemma step_preserves st o : slot_owns_live st → slot_owns_live (step st o).
Proof.
  intros Hinv. destruct o as [fz render page|]; simpl.
  - unfold loadTile.
    pose proof (loadPage_preserves fz page st Hinv) as Hload.
    by destruct (loadPage fz page st) as [[[]|e] st1].
  - by apply freeCurrentPage_spec.
Qed.

Lemma run_preserves ops st : slot_owns_live st → slot_owns_live (run ops st).
Proof.
  revert st. induction ops as [|o ops IH]; intros st Hinv; [done|].
  apply IH. by apply step_preserves.
Qed.

(** C9: in every state the rasterizer reaches from its construction by
    calls of [loadTile] and [freeCurrentPage], at most one display list is
    live at every point of the history of fitz calls, and the live lists
    are those in the page slot.  In such a state, [loadTile] on the page
    that is current with a list in the slot leaves the state as it is: no
    list is built.  [loadTile] on another page, with a list [l] in the
    slot, first drops [l] and then builds the list of the new page, a
    different list, which is then the only live one; when fitz fails to
    build it, [l] has been dropped all the same and the slot is empty. *)
Theorem rasterizer_at_most_one_live_page pages firstPageNum ops :
  let st := run ops (initial pages firstPageNum) in
  at_most_one_live (fitz st) ∧
  live (fitz st) = option_to_set (currentPageList st) ∧
  (∀ fz (render : outcome unit) page,
     page = currentPageNum st → currentPageList st ≠ None →
     loadTile fz render page st = (render, st)) ∧
  (∀ (render : outcome unit) page l,
     page ≠ currentPageNum st → currentPageList st = Some l →
     ∃ l' st',
       loadTile FzOk render page st = (render, st') ∧
       l' ≠ l ∧
       fitz st' = fitz st ++
         [FzDropDisplayList l; FzNewDisplayListFromPageNumber page l'] ∧
       currentPageList st' = Some l' ∧ currentPageNum st' = page ∧
       live (fitz st') = {[l']}) ∧
  (∀ (render : outcome unit) page l message,
     page ≠ currentPageNum st → currentPageList st = Some l →
     ∃ st',
       loadTile (FzCaught message) render page st =
         (Thrown (runtime_error ("Cannot parse page: " +:+ message)), st') ∧
       fitz st' = fitz st ++ [FzDropDisplayList l] ∧
       currentPageList st' = None ∧ live (fitz st') = ∅).
Proof.
  intros st.
  assert (Hinv : slot_owns_live st)
    by apply run_preserves, slot_owns_live_initial.
  destruct Hinv as (Hlive & Hone & Hfresh).
  split_and!; [done|done| | |].
  - intros fz render page Hpage Hslot. unfold loadTile, loadPage.
    rewrite (bool_decide_eq_true_2 _ Hpage), (bool_decide_eq_true_2 _ Hslot).
    done.
  - intros render page l Hpage Hslot. unfold loadTile, loadPage.
    rewrite (bool_decide_eq_false_2 _ Hpage). simpl.
    unfold freeCurrentPage. rewrite Hslot. simpl.
    exists (allocations st). eexists. split; [done|]. simpl.
    split_and!; try done.
    + specialize (Hfresh l Hslot). lia.
    + by rewrite <- app_assoc.
    + rewrite !live_snoc, Hlive, Hslot. simpl.
      rewrite difference_diag_L. apply (right_id_L ∅ (∪)).
  - intros render page l message Hpage Hslot. unfold loadTile, loadPage.
    rewrite (bool_decide_eq_false_2 _ Hpage). simpl.
    unfold freeCurrentPage. rewrite Hslot. simpl.
    eexists. split; [done|]. simpl. split_and!; try done.
    rewrite live_snoc, Hlive, Hslot. simpl. apply difference_diag_L.
Qed.

End RasterizerFacts.

(** * The theorems at work on the concrete cache *)

Section Instances.
Import TileCache Rasterizer Demo.

Local Ltac by_computation := vm_compute; first [reflexivity | done | lia].

Local Ltac not_in_set :=
  first [ apply not_elem_of_empty
        | intros Hin; apply elem_of_singleton in Hin; discriminate Hin ].

(** Tile (15,0,3) wraps to the errored (7,0,3): [getTile] throws and the
    state is untouched. *)
Lemma getTile_errored_fails_fast_witness :
  checkAndCorrectTileCoordinates (15, 0, 3)%Z = Some (7, 0, 3)%Z ∧
  getTile (40 * second)%Z (15, 0, 3)%Z busy
    = (Thrown (runtime_error "Corrupt tile"), busy).
Proof.
  split; [reflexivity|].
  apply (getTile_errored_fails_fast (40 * second)%Z (15, 0, 3)%Z (7, 0, 3)%Z busy).
  - reflexivity.
  - apply elem_of_singleton. reflexivity.
Defined.

(** Three requests for tile (9,1,3) of a fresh cache leave one pending
    load, that of the wrapped (1,1,3). *)
Lemma getTile_full_miss_enqueues_once_witness :
  loadSet (getTile_repeat [1; 2; 3]%Z (9, 1, 3)%Z fresh) = {[ (1, 1, 3)%Z ]} ∪ ∅ ∧
  size (loadSet (getTile_repeat [1; 2; 3]%Z (9, 1, 3)%Z fresh)) ≤ 1.
Proof.
  destruct (getTile_full_miss_enqueues_once 1%Z (9, 1, 3)%Z (1, 1, 3)%Z fresh)
    as [_ Hrepeat].
  - reflexivity.
  - not_in_set.
  - reflexivity.
  - reflexivity.
  - destruct (Hrepeat [1; 2; 3]%Z) as (Hset & Hsize & _); [done|].
    split; [exact Hset | exact Hsize].
Defined.

(** The three outcomes of loading the pending tile (2,3,4). *)
Lemma worker_load_outcomes_witness :
  memoryCache (processCoords (demoInputs (Loaded 77)) (2, 3, 4)%Z busy)
    !! "4/2/3.png" = Some (77, (6 * second)%Z) ∧
  disk (processCoords (demoInputs (Loaded 77)) (2, 3, 4)%Z busy)
    !! "cache/4/2/3.png" = Some (Some 77) ∧
  memoryCache (processCoords (demoInputs (LoadThrew (out_of_range "cancelled")))
                 (2, 3, 4)%Z busy) = memoryCache busy ∧
  errorSet (processCoords (demoInputs (LoadThrew (out_of_range "cancelled")))
              (2, 3, 4)%Z busy) = errorSet busy ∧
  errorSet (processCoords (demoInputs (LoadThrew (runtime_error "HTTP 404")))
              (2, 3, 4)%Z busy) = {[ (2, 3, 4)%Z ]} ∪ errorSet busy.
Proof.
  assert (Hmiss : memoryCache busy !! getFilePathForTile (2, 3, 4)%Z = None)
    by (vm_compute; reflexivity).
  pose proof (worker_load_outcomes (demoInputs (Loaded 77)) (2, 3, 4)%Z busy
                Hmiss) as (_ & Hmem & Hdisk & _).
  pose proof (worker_load_outcomes
                (demoInputs (LoadThrew (out_of_range "cancelled"))) (2, 3, 4)%Z busy
                Hmiss) as (Herr & Hsame & _).
  pose proof (worker_load_outcomes
                (demoInputs (LoadThrew (runtime_error "HTTP 404"))) (2, 3, 4)%Z busy
                Hmiss) as (Hfail & _).
  split_and!; [exact Hmem | exact Hdisk | exact Hsame | exact Herr | exact Hfail].
Defined.

(** The entry stamped at second 2 survives a flush at second 31 and is
    gone after a flush at second 32. *)
Lemma flushCache_retains_iff_young_witness :
  memoryCache (flushCache (31 * second)%Z busy) !! "1/1/1.png"
    = Some (11, (2 * second)%Z) ∧
  memoryCache (flushCache (32 * second)%Z busy) !! "1/1/1.png" = None.
Proof.
  split.
  - apply (flushCache_retains_iff_young (IL := images)
             (31 * second)%Z busy "1/1/1.png" 11
             (2 * second)%Z); by_computation.
  - apply (flushCache_retains_iff_young (IL := images)
             (32 * second)%Z busy "1/1/1.png" 11
             (2 * second)%Z); by_computation.
Defined.

(** Tile (1,1,1) is in memory: nothing entered under its path changes the
    cache. *)
Lemma enterMemoryCache_never_overwrites_witness :
  memoryCache (enterMemoryCache (9 * second)%Z (1, 1, 1)%Z 99 busy)
    = memoryCache busy ∧
  memoryCache (loadAndCacheTile (Loaded 99) (9 * second)%Z (1, 1, 1)%Z busy)
    = memoryCache busy.
Proof.
  assert (Hhit : memoryCache busy !! getFilePathForTile (1, 1, 1)%Z
                 = Some (11, (2 * second)%Z)) by (vm_compute; reflexivity).
  destruct (enterMemoryCache_never_overwrites (IL := images)
              (9 * second)%Z (1, 1, 1)%Z 99 busy _ Hhit) as (Henter & _ & Hload).
  split; [exact Henter | exact Hload].
Defined.

(** C4, as stated, fails: the file of tile (0,0,0) exists and does not
    decode; [getTile] does not return a miss but throws the decoder's
    exception, and the coordinate is not put into the load set. *)
Lemma getTile_undecodable_file_counterexample :
  fileExists "cache/0/0/0.png" busy = true ∧
  readImageFile "cache/0/0/0.png" busy
    = Thrown (runtime_error "Couldn't decode image") ∧
  (getTile (40 * second)%Z (0, 0, 0)%Z busy).1
    = Thrown (runtime_error "Couldn't decode image") ∧
  (getTile (40 * second)%Z (0, 0, 0)%Z busy).1 ≠ Returned None ∧
  loadSet (getTile (40 * second)%Z (0, 0, 0)%Z busy).2 = loadSet busy.
Proof.
  split_and!; try reflexivity.
  intros Hmiss. vm_compute in Hmiss. discriminate Hmiss.
Qed.

(** The undecodable file of tile (0,0,0) and the good file of tile
    (3,4,5). *)
Lemma getTile_file_on_disk_is_not_a_miss_witness :
  (getTile (40 * second)%Z (0, 0, 0)%Z busy).1 ≠ Returned None ∧
  (getTile (40 * second)%Z (3, 4, 5)%Z busy).1 = Returned (Some 34).
Proof.
  split.
  - apply (getTile_file_on_disk_is_not_a_miss (40 * second)%Z (0, 0, 0)%Z
             (0, 0, 0)%Z busy None); first [not_in_set | by_computation].
  - apply (getTile_file_on_disk_is_not_a_miss (40 * second)%Z (3, 4, 5)%Z
             (3, 4, 5)%Z busy (Some 34)); first [not_in_set | by_computation].
Defined.

(** Page 3, page 3 again, then page 5. *)
Lemma rasterizer_at_most_one_live_page_witness :
  fitz (run demoOps (initial 8 0)) =
    [FzNewDisplayListFromPageNumber 3 0; FzDropDisplayList 0;
     FzNewDisplayListFromPageNumber 5 1] ∧
  at_most_one_live (fitz (run demoOps (initial 8 0))) ∧
  loadTile FzOk (Returned ()) 5%Z (run demoOps (initial 8 0))
    = (Returned (), run demoOps (initial 8 0)).
Proof.
  destruct (rasterizer_at_most_one_live_page 8 0 demoOps) as (Hone & _ & Hsame & _).
  split_and!; [reflexivity | exact Hone | apply Hsame; by_computation].
Defined.

End Instances.

(** * Further properties of the tile cache *)

Section MoreCacheFacts.
Import TileCache CacheRun.
Context `{IL : ImageLayer} `{TS : TileSource} `{K : Constants}.
Implicit Types (st : State) (c xyz : TileCoords) (now : TimePoint).

(** The paths of [getTile], one by one. *)
Lemma getTile_invalid now xyz st :
  checkAndCorrectTileCoordinates xyz = None →
  getTile now xyz st =
    (Thrown (runtime_error "Invalid coordinates in getTile"), st).
Proof. intros Hbad. unfold getTile. by rewrite Hbad. Qed.

Lemma getTile_memory_hit now xyz c st img t :
  checkAndCorrectTileCoordinates xyz = Some c →
  c ∉ errorSet st →
  memoryCache st !! getFilePathForTile c = Some (img, t) →
  getTile now xyz st =
    (Returned (Some img),
     set_memoryCache (<[getFilePathForTile c := (img, now)]> (memoryCache st)) st).
Proof.
  intros Hok Herr Hmem. unfold getTile. rewrite Hok.
  rewrite decide_False by done.
  by rewrite (getFromMemory_hit _ _ _ img t).
Qed.

Lemma getTile_disk_hit now xyz c st data img :
  checkAndCorrectTileCoordinates xyz = Some c →
  c ∉ errorSet st →
  memoryCache st !! getFilePathForTile c = None →
  disk st !! diskFileName st c = Some data →
  loadImageFile data = Returned img →
  getTile now xyz st =
    (Returned (Some img),
     set_memoryCache (<[getFilePathForTile c := (img, now)]> (memoryCache st))
       (log (ImgLoadImageFile (diskFileName st c))
          (log (PlatFileExists (diskFileName st c)) st))).
Proof.
  intros Hok Herr Hmem Hdisk Hdec. unfold getTile. rewrite Hok.
  rewrite decide_False by done.
  rewrite getFromMemory_miss by done.
  unfold getFromDisk, readImageFile.
  rewrite (fileExists_true _ _ data) by done. simpl.
  rewrite Hdisk, Hdec.
  by rewrite enterMemoryCache_absent by (by destruct st).
Qed.

Lemma getTile_disk_throw now xyz c st data e :
  checkAndCorrectTileCoordinates xyz = Some c →
  c ∉ errorSet st →
  memoryCache st !! getFilePathForTile c = None →
  disk st !! diskFileName st c = Some data →
  loadImageFile data = Thrown e →
  getTile now xyz st =
    (Thrown e,
     log (ImgLoadImageFile (diskFileName st c))
       (log (PlatFileExists (diskFileName st c)) st)).
Proof.
  intros Hok Herr Hmem Hdisk Hdec. unfold getTile. rewrite Hok.
  rewrite decide_False by done.
  rewrite getFromMemory_miss by done.
  unfold getFromDisk, readImageFile.
  rewrite (fileExists_true _ _ data) by done. simpl.
  by rewrite Hdisk, Hdec.
Qed.

Lemma getTile_corrupt now xyz c st :
  checkAndCorrectTileCoordinates xyz = Some c →
  c ∈ errorSet st →
  getTile now xyz st = (Thrown (runtime_error "Corrupt tile"), st).
Proof.
  intros Hok Herr. unfold getTile. rewrite Hok. by rewrite decide_True.
Qed.

(** Case analysis along the paths of [getTile]: the call in the goal is
    replaced by its result on each path. *)
Ltac getTile_paths now xyz st :=
  let c := fresh "c" in
  let Hok := fresh "Hok" in
  let Herr := fresh "Herr" in
  let Hmem := fresh "Hmem" in
  let Hdisk := fresh "Hdisk" in
  let Hdec := fresh "Hdec" in
  let img := fresh "img" in
  let t := fresh "t" in
  let data := fresh "data" in
  let e := fresh "e" in
  destruct (checkAndCorrectTileCoordinates xyz) as [c|] eqn:Hok;
  [ destruct (decide (c ∈ errorSet st)) as [Herr|Herr];
    [ rewrite ?(getTile_corrupt now xyz c st Hok Herr) in *
    | destruct (memoryCache st !! getFilePathForTile c) as [[img t]|] eqn:Hmem;
      [ rewrite ?(getTile_memory_hit now xyz c st img t Hok Herr Hmem) in *
      | destruct (disk st !! diskFileName st c) as [data|] eqn:Hdisk;
        [ destruct (loadImageFile data) as [img|e] eqn:Hdec;
          [ rewrite ?(getTile_disk_hit now xyz c st data img Hok Herr Hmem Hdisk Hdec) in *
          | rewrite ?(getTile_disk_throw now xyz c st data e Hok Herr Hmem Hdisk Hdec) in * ]
        | rewrite ?(getTile_miss_step now xyz c st Hok Herr Hmem Hdisk) in * ] ] ]
  | rewrite ?(getTile_invalid now xyz st Hok) in * ].

(** X1: whatever path it takes, [getTile] calls neither [loadTileImage]
    nor any other function of the tile source that does work: all it adds
    to the call log are [fileExists], [loadImageFile] and [notify_one]; and
    it leaves the error set, the files on disk, the shutdown flag and the
    cache directory as they are. *)
Theorem getTile_never_calls_the_source now xyz st :
  errorSet (getTile now xyz st).2 = errorSet st ∧
  disk (getTile now xyz st).2 = disk st ∧
  keepAlive (getTile now xyz st).2 = keepAlive st ∧
  cacheDir (getTile now xyz st).2 = cacheDir st ∧
  ∃ added,
    calls (getTile now xyz st).2 = calls st ++ added ∧
    ∀ call, call ∈ added →
      call = CondNotifyOne ∨
      ∃ fileName, call = PlatFileExists fileName ∨ call = ImgLoadImageFile fileName.
Proof.
  getTile_paths now xyz st; destruct st as [dir mem ls es ka dk cs]; simpl;
    split_and!; try done.
  - exists []. split; [by rewrite app_nil_r|]. by intros call Hin%elem_of_nil.
  - exists []. split; [by rewrite app_nil_r|]. by intros call Hin%elem_of_nil.
  - eexists [_; _]. split; [by rewrite <- app_assoc|].
    intros call [->|[->|Hin%elem_of_nil]%elem_of_cons]%elem_of_cons; [| |done];
      right; eexists; eauto.
  - eexists [_; _]. split; [by rewrite <- app_assoc|].
    intros call [->|[->|Hin%elem_of_nil]%elem_of_cons]%elem_of_cons; [| |done];
      right; eexists; eauto.
  - eexists [_; _]. split; [by rewrite <- app_assoc|].
    intros call [->|[->|Hin%elem_of_nil]%elem_of_cons]%elem_of_cons; [| |done].
    + right; eexists; eauto.
    + by left.
  - exists []. split; [by rewrite app_nil_r|]. by intros call Hin%elem_of_nil.
Qed.

(** X2: [getTile] never removes anything: every pending coordinate stays
    pending, the load set gains at most the corrected coordinate, and an
    artifact path that is in the memory cache stays there with the same
    image (only its time stamp may move). *)
Theorem getTile_only_adds now xyz st :
  loadSet st ⊆ loadSet (getTile now xyz st).2 ∧
  (∀ c', c' ∈ loadSet (getTile now xyz st).2 →
         c' ∈ loadSet st ∨ checkAndCorrectTileCoordinates xyz = Some c') ∧
  (∀ path img t,
     memoryCache st !! path = Some (img, t) →
     ∃ t', memoryCache (getTile now xyz st).2 !! path = Some (img, t')).
Proof.
  getTile_paths now xyz st; destruct st as [dir mem ls es ka dk cs]; simpl in *;
    split_and!; try done; try (intros c' Hin; by left);
    try (intros path img' t' Hentry; by exists t').
  - intros path img' t' Hentry.
    destruct (decide (getFilePathForTile c = path)) as [<-|Hne].
    + rewrite lookup_insert_eq. exists now.
      rewrite Hmem in Hentry. by injection Hentry as -> _.
    + rewrite lookup_insert_ne by done. by exists t'.
  - intros path img' t' Hentry.
    destruct (decide (getFilePathForTile c = path)) as [<-|Hne].
    + congruence.
    + rewrite lookup_insert_ne by done. by exists t'.
  - apply union_subseteq_r.
  - intros c' [->%elem_of_singleton|Hin]%elem_of_union; [by right|by left].
Qed.

(** X3: [getTile] returns the empty result exactly on a full miss: the
    coordinate is accepted, not errored, not in the memory cache under its
    artifact path, and has no file on disk. *)
Theorem getTile_miss_iff now xyz st :
  (getTile now xyz st).1 = Returned None ↔
  ∃ c, checkAndCorrectTileCoordinates xyz = Some c ∧
       (c ∉ errorSet st) ∧
       memoryCache st !! getFilePathForTile c = None ∧
       disk st !! diskFileName st c = None.
Proof.
  split.
  - getTile_paths now xyz st; simpl; try discriminate.
    intros _. by exists c.
  - intros (c & Hok & Herr & Hmem & Hdisk).
    by rewrite (getTile_miss_step now xyz c st).
Qed.

(** X4: an image that [getTile] returns was in the memory cache under the
    artifact path, or was decoded from the tile's file on disk; and after
    the call it is in the memory cache under that path, stamped with the
    time of the call, while the load set is as before. *)
Theorem getTile_hit_is_backed_and_cached now xyz st img :
  (getTile now xyz st).1 = Returned (Some img) →
  ∃ c, checkAndCorrectTileCoordinates xyz = Some c ∧
       (c ∉ errorSet st) ∧
       ((∃ t, memoryCache st !! getFilePathForTile c = Some (img, t)) ∨
        (memoryCache st !! getFilePathForTile c = None ∧
         ∃ data, disk st !! diskFileName st c = Some data ∧
                 loadImageFile data = Returned img)) ∧
       memoryCache (getTile now xyz st).2 !! getFilePathForTile c = Some (img, now) ∧
       loadSet (getTile now xyz st).2 = loadSet st.
Proof.
  getTile_paths now xyz st; simpl; try discriminate.
  - intros [= ->]. exists c. split_and!; try done.
    + left. by exists t.
    + destruct st; simpl. by rewrite lookup_insert_eq.
  - intros [= ->]. exists c. split_and!; try done.
    + right. split; [done|]. by exists data.
    + destruct st; simpl. by rewrite lookup_insert_eq.
Qed.

(** X5: a call of [getTile] that throws has changed nothing in the cache:
    memory cache, load set and error set are as before.  It throws
    "Invalid coordinates in getTile" when the source rejects the
    coordinate, "Corrupt tile" when the corrected coordinate is errored,
    and otherwise what [loadImageFile] threw on the tile's file. *)
Theorem getTile_throw_changes_nothing now xyz st e :
  (getTile now xyz st).1 = Thrown e →
  memoryCache (getTile now xyz st).2 = memoryCache st ∧
  loadSet (getTile now xyz st).2 = loadSet st ∧
  errorSet (getTile now xyz st).2 = errorSet st ∧
  ((checkAndCorrectTileCoordinates xyz = None ∧
    e = runtime_error "Invalid coordinates in getTile") ∨
   (∃ c, checkAndCorrectTileCoordinates xyz = Some c ∧ c ∈ errorSet st ∧
         e = runtime_error "Corrupt tile") ∨
   (∃ c data, checkAndCorrectTileCoordinates xyz = Some c ∧
              disk st !! diskFileName st c = Some data ∧
              loadImageFile data = Thrown e)).
Proof.
  getTile_paths now xyz st; simpl; try discriminate; intros [= <-].
  - split_and!; try done. right; left. by exists c.
  - destruct st; simpl in *. split_and!; try done. right; right. by exists c, data.
  - split_and!; try done. by left.
Qed.

(** X6: a tile served from disk is served from memory the next time: the
    second call returns the same image, asks the platform and the image
    layer nothing, and stamps the entry with its own time. *)
Theorem getTile_disk_hit_then_memory_hit now1 now2 xyz c st data img :
  checkAndCorrectTileCoordinates xyz = Some c →
  c ∉ errorSet st →
  memoryCache st !! getFilePathForTile c = None →
  disk st !! diskFileName st c = Some data →
  loadImageFile data = Returned img →
  let st1 := (getTile now1 xyz st).2 in
  (getTile now1 xyz st).1 = Returned (Some img) ∧
  (getTile now2 xyz st1).1 = Returned (Some img) ∧
  calls (getTile now2 xyz st1).2 = calls st1 ∧
  memoryCache (getTile now2 xyz st1).2 !! getFilePathForTile c = Some (img, now2).
Proof.
  intros Hok Herr Hmem Hdisk Hdec st1. subst st1.
  rewrite (getTile_disk_hit now1 xyz c st data img) by done. simpl.
  split; [done|].
  rewrite (getTile_memory_hit now2 xyz c _ img now1); try done.
  - destruct st; simpl. split_and!; try done. by rewrite lookup_insert_eq.
  - destruct st; simpl. by rewrite lookup_insert_eq.
Qed.

(** What the worker leaves alone. *)
Lemma flushCache_members now st :
  loadSet (flushCache now st) = loadSet st ∧
  errorSet (flushCache now st) = errorSet st ∧
  keepAlive (flushCache now st) = keepAlive st ∧
  disk (flushCache now st) = disk st ∧
  cacheDir (flushCache now st) = cacheDir st ∧
  calls (flushCache now st) = calls st.
Proof. by destruct st. Qed.

Lemma processCoords_members (w : WorkerInputs) c st :
  loadSet (processCoords w c st) = loadSet st ∧
  keepAlive (processCoords w c st) = keepAlive st ∧
  cacheDir (processCoords w c st) = cacheDir st ∧
  errorSet st ⊆ errorSet (processCoords w c st).
Proof.
  unfold processCoords, getFromMemory.
  destruct (memoryCache st !! getFilePathForTile c) as [[img t]|] eqn:Hmem.
  - by destruct st.
  - unfold loadAndCacheTile, storeAndClearEncodedData.
    destruct (loadResult w) as [img|[what|what]].
    + rewrite enterMemoryCache_absent by (by destruct st). by destruct st.
    + destruct st; simpl. split_and!; try done. apply union_subseteq_r.
    + by destruct st.
Qed.

Lemma loadLoopBody_members (w : WorkerInputs) st :
  keepAlive (loadLoopBody w st) = keepAlive st ∧
  cacheDir (loadLoopBody w st) = cacheDir st ∧
  errorSet st ⊆ errorSet (loadLoopBody w st).
Proof.
  unfold loadLoopBody. destruct (keepAlive st) eqn:Halive; simpl; [|done].
  destruct (loadSet_begin (loadSet st)) as [c|].
  - destruct (flushCache_members (nowFlush w)
      (processCoords w c (log SrcResumeLoading (set_loadSet (loadSet st ∖ {[c]}) st))))
      as (_ & -> & -> & _ & -> & _).
    destruct (processCoords_members w c
      (log SrcResumeLoading (set_loadSet (loadSet st ∖ {[c]}) st)))
      as (_ & -> & -> & Hsub).
    by destruct st.
  - by destruct st.
Qed.

(** A young entry survives the flush. *)
Lemma flushCache_keeps_young now st path img (t : TimePoint) :
  (0 < ticks_per_second)%Z → (t ≤ now)%Z →
  (now - t < CACHE_SECONDS * ticks_per_second)%Z →
  memoryCache st !! path = Some (img, t) →
  memoryCache (flushCache now st) !! path = Some (img, t).
Proof.
  intros Hpos Hmono Hyoung Hentry. destruct st; simpl in *.
  rewrite map_lookup_filter_Some. split; [done|]. unfold expired; simpl.
  rewrite duration_seconds_threshold by lia. lia.
Qed.

Lemma flushCache_keeps_absent now st path :
  memoryCache st !! path = None →
  memoryCache (flushCache now st) !! path = None.
Proof.
  intros Hnone. destruct st; simpl in *.
  rewrite map_lookup_filter_None. by left.
Qed.

(** X7: a round of the worker that finds work takes exactly one
    coordinate out of the load set and tells the source to resume before
    anything else; the other pending coordinates stay pending. *)
Theorem loadLoopBody_takes_one_coordinate (w : WorkerInputs) st :
  keepAlive st = true →
  loadSet st ≠ ∅ →
  ∃ c, c ∈ loadSet st ∧
       loadSet (loadLoopBody w st) = loadSet st ∖ {[c]} ∧
       S (size (loadSet (loadLoopBody w st))) = size (loadSet st) ∧
       ∃ later, calls (loadLoopBody w st) = calls st ++ SrcResumeLoading :: later.
Proof.
  intros Halive Hwork.
  destruct (loadSet_begin (loadSet st)) as [c|] eqn:Hbegin;
    [|by apply loadSet_begin_None in Hbegin].
  destruct (loadLoopBody_dequeue w st c Halive Hbegin) as [Hin ->].
  exists c. split; [done|].
  remember (log SrcResumeLoading (set_loadSet (loadSet st ∖ {[c]}) st)) as st1 eqn:Hst1.
  assert (Hls : loadSet st1 = loadSet st ∖ {[c]}) by (subst st1; by destruct st).
  assert (Hcs : calls st1 = calls st ++ [SrcResumeLoading]) by (subst st1; by destruct st).
  clear Hst1.
  destruct (flushCache_members (nowFlush w) (processCoords w c st1))
    as (-> & _ & _ & _ & _ & ->).
  destruct (processCoords_members w c st1) as (-> & _).
  rewrite Hls. split_and!; [done| |].
  - rewrite size_difference by (by apply singleton_subseteq_l).
    rewrite size_singleton.
    assert (size (loadSet st) ≠ 0); [|lia].
    intros Hzero. by apply size_empty_inv, leibniz_equiv in Hzero.
  - unfold processCoords, getFromMemory.
    destruct (memoryCache st1 !! getFilePathForTile c) as [[img t]|] eqn:Hmem.
    + exists []. destruct st1; simpl in *. by rewrite Hcs.
    + unfold loadAndCacheTile, storeAndClearEncodedData.
      destruct (loadResult w) as [img|[what|what]].
      * rewrite enterMemoryCache_absent by (by destruct st1).
        destruct st1; simpl in *. rewrite Hcs.
        eexists [_; _]. by rewrite <- !app_assoc.
      * destruct st1; simpl in *. rewrite Hcs.
        eexists [_]. by rewrite <- !app_assoc.
      * destruct st1; simpl in *. rewrite Hcs.
        eexists [_]. by rewrite <- !app_assoc.
Qed.

Lemma loadLoopBody_size (w : WorkerInputs) st :
  keepAlive st = true →
  size (loadSet (loadLoopBody w st)) = size (loadSet st) - 1.
Proof.
  intros Halive.
  destruct (loadSet_begin (loadSet st)) as [c|] eqn:Hbegin.
  - destruct (loadLoopBody_dequeue w st c Halive Hbegin) as [Hin ->].
    set (st1 := log SrcResumeLoading (set_loadSet (loadSet st ∖ {[c]}) st)).
    destruct (flushCache_members (nowFlush w) (processCoords w c st1))
      as (-> & _).
    destruct (processCoords_members w c st1) as (-> & _).
    assert (Hls : loadSet st1 = loadSet st ∖ {[c]}) by (by destruct st).
    rewrite Hls, size_difference by (by apply singleton_subseteq_l).
    by rewrite size_singleton.
  - unfold loadLoopBody. rewrite Halive, Hbegin. cbn [negb].
    apply loadSet_begin_None in Hbegin.
    destruct (flushCache_members (nowFlush w) st) as (-> & _).
    rewrite Hbegin, size_empty. lia.
Qed.

(** X8: the worker drains the load set one coordinate a round: after [n]
    rounds without new requests, [n] pending coordinates less are left, and
    as many rounds as there were pending coordinates leave none. *)
Theorem workerRounds_drain_loadSet (ws : list WorkerInputs) st :
  keepAlive st = true →
  size (loadSet (workerRounds ws st)) = size (loadSet st) - length ws ∧
  (size (loadSet st) ≤ length ws → loadSet (workerRounds ws st) = ∅).
Proof.
  intros Halive.
  assert (Hsize : size (loadSet (workerRounds ws st)) = size (loadSet st) - length ws).
  { revert st Halive. induction ws as [|w ws IH]; intros st Halive; simpl.
    - lia.
    - unfold workerRounds in *. simpl. rewrite IH.
      + rewrite loadLoopBody_size by done. lia.
      + by destruct (loadLoopBody_members w st) as (-> & _). }
  split; [done|].
  intros Hle. apply leibniz_equiv, size_empty_inv. lia.
Qed.

(** X9: once the destructor has cleared [keepAlive], the worker has work
    to wake up for, and its round does nothing any more: pending
    coordinates are not loaded.  The destructor cancels the pending loads
    of the source and signals the worker, in this order, and leaves the
    memory cache and the load set as they are. *)
Theorem shutdown_stops_the_worker (w : WorkerInputs) st :
  hasWork (shutdown st) = true ∧
  loadLoopBody w (shutdown st) = shutdown st ∧
  calls (shutdown st) = calls st ++ [SrcCancelPendingLoads; CondNotifyOne] ∧
  memoryCache (shutdown st) = memoryCache st ∧
  loadSet (shutdown st) = loadSet st.
Proof.
  destruct st; unfold hasWork, loadLoopBody; simpl.
  split_and!; try done. by rewrite <- app_assoc.
Qed.

(** X10: a round of the worker on a live cache with nothing pending (the
    wake-up after a second) does nothing but flush the memory cache; no
    collaborator is called. *)
Theorem idle_round_only_flushes (w : WorkerInputs) st :
  keepAlive st = true →
  loadSet st = ∅ →
  hasWork st = false ∧
  loadLoopBody w st = flushCache (nowFlush w) st ∧
  calls (loadLoopBody w st) = calls st.
Proof.
  intros Halive Hempty.
  assert (Hbegin : loadSet_begin (loadSet st) = None)
    by by apply loadSet_begin_None.
  unfold hasWork, loadLoopBody. rewrite Halive, Hbegin, Hempty. cbn [negb].
  split_and!; [by rewrite bool_decide_eq_true_2| done | by destruct st].
Qed.

(** X11: a miss of [getTile] leaves work for the worker and signals it
    last; after [cancelPendingRequests] or [purge] on a live cache there is
    no work. *)
Theorem hasWork_after_miss_and_cancel now xyz st :
  ((getTile now xyz st).1 = Returned None →
     hasWork (getTile now xyz st).2 = true ∧
     last (calls (getTile now xyz st).2) = Some CondNotifyOne) ∧
  (keepAlive st = true →
     hasWork (cancelPendingRequests st) = false ∧ hasWork (purge st) = false).
Proof.
  split.
  - getTile_paths now xyz st; simpl; try discriminate. intros _.
    unfold hasWork. destruct st as [dir mem ls es ka dk cs]; simpl. split.
    + destruct ka; simpl; [|done].
      rewrite bool_decide_eq_false_2; [done|].
      intros Hempty. apply (not_elem_of_empty (C := gset TileCoords) c).
      rewrite <- Hempty. apply elem_of_union_l. by apply elem_of_singleton.
    + by rewrite last_snoc.
  - intros Halive. unfold hasWork. destruct st; simpl in *. subst.
    by rewrite bool_decide_eq_true_2.
Qed.

(** X12: two pending coordinates with the same artifact path cost one
    call of the tile source: once the worker has loaded the first, it
    finds the image in memory when it comes to the second (as long as the
    flush in between has not evicted it), calls nothing and only stamps
    the entry. *)
Theorem same_artifact_is_loaded_once (w1 w2 : WorkerInputs) c1 c2 st img :
  getFilePathForTile c1 = getFilePathForTile c2 →
  memoryCache st !! getFilePathForTile c1 = None →
  loadResult w1 = Loaded img →
  (0 < ticks_per_second)%Z →
  (nowEnter w1 ≤ nowFlush w1)%Z →
  (nowFlush w1 - nowEnter w1 < CACHE_SECONDS * ticks_per_second)%Z →
  let st1 := flushCache (nowFlush w1) (processCoords w1 c1 st) in
  let st2 := processCoords w2 c2 st1 in
  loadCalls (calls st1) = S (loadCalls (calls st)) ∧
  calls st2 = calls st1 ∧
  disk st2 = disk st1 ∧
  errorSet st2 = errorSet st ∧
  memoryCache st2 !! getFilePathForTile c2 = Some (img, nowCheck w2).
Proof.
  intros Hpath Hmiss Hload Hpos Hmono Hyoung st1 st2.
  assert (Hst : processCoords w1 c1 st =
    storeAndClearEncodedData (diskFileName st c1) img
      (set_memoryCache (<[getFilePathForTile c1 := (img, nowEnter w1)]> (memoryCache st))
         (log (SrcLoadTileImage c1) st))).
  { unfold processCoords. rewrite getFromMemory_miss by done.
    unfold loadAndCacheTile. rewrite Hload.
    rewrite enterMemoryCache_absent by (by destruct st). by destruct st. }
  assert (Hentry : memoryCache st1 !! getFilePathForTile c2 = Some (img, nowEnter w1)).
  { subst st1. apply flushCache_keeps_young; try done.
    rewrite Hst, <- Hpath. destruct st; simpl. by rewrite lookup_insert_eq. }
  assert (Hst2 : st2 =
    set_memoryCache (<[getFilePathForTile c2 := (img, nowCheck w2)]> (memoryCache st1)) st1).
  { subst st2. unfold processCoords.
    by rewrite (getFromMemory_hit _ _ _ img (nowEnter w1)). }
  split_and!.
  - subst st1. rewrite Hst. destruct st as [dir mem ls es ka dk cs]; simpl.
    unfold loadCalls. rewrite !filter_app, !length_app. simpl. lia.
  - rewrite Hst2. by destruct st1.
  - rewrite Hst2. by destruct st1.
  - rewrite Hst2. subst st1. rewrite Hst. by destruct st.
  - rewrite Hst2. destruct st1; simpl. by rewrite lookup_insert_eq.
Qed.

(** The worker round that follows a first miss on an idle cache takes
    the coordinate that was just requested. *)
Lemma loadLoopBody_after_first_miss (w : WorkerInputs) c st1 :
  keepAlive st1 = true →
  loadSet st1 = {[c]} ∪ ∅ →
  loadLoopBody w st1 =
    flushCache (nowFlush w)
      (processCoords w c
         (log SrcResumeLoading (set_loadSet (loadSet st1 ∖ {[c]}) st1))).
Proof.
  intros Halive Hls.
  destruct (loadSet_begin (loadSet st1)) as [c'|] eqn:Hbegin.
  - pose proof (loadSet_begin_elem_of _ _ Hbegin) as Hin.
    rewrite Hls in Hin.
    apply elem_of_union in Hin as [->%elem_of_singleton|Hin];
      [|by apply not_elem_of_empty in Hin].
    by apply loadLoopBody_dequeue.
  - apply loadSet_begin_None in Hbegin. rewrite Hls in Hbegin.
    exfalso. apply (not_elem_of_empty (C := gset TileCoords) c).
    rewrite <- Hbegin. apply elem_of_union_l. by apply elem_of_singleton.
Qed.

(** What a round with a failing load leaves behind. *)
Lemma failed_round_members (w : WorkerInputs) c st1 what :
  keepAlive st1 = true →
  loadSet st1 = {[c]} ∪ ∅ →
  memoryCache st1 !! getFilePathForTile c = None →
  loadResult w = LoadThrew (runtime_error what) →
  errorSet (loadLoopBody w st1) = {[c]} ∪ errorSet st1 ∧
  memoryCache (loadLoopBody w st1) !! getFilePathForTile c = None ∧
  disk (loadLoopBody w st1) = disk st1 ∧
  cacheDir (loadLoopBody w st1) = cacheDir st1.
Proof.
  intros Halive Hls Hmem Hfail.
  rewrite (loadLoopBody_after_first_miss w c st1) by done.
  unfold processCoords.
  rewrite getFromMemory_miss by (by destruct st1).
  unfold loadAndCacheTile. rewrite Hfail.
  destruct st1; simpl in *. split_and!; try done.
  rewrite map_lookup_filter_None. by left.
Qed.

(** X13: a failed load is remembered until the error set is cleared.  On
    an idle live cache a first request for a tile that is nowhere misses;
    if [loadTileImage] then throws an exception other than
    [std::out_of_range] in the worker's round, the next request throws
    "Corrupt tile" and changes nothing; after [cancelPendingRequests] the
    request misses again and the coordinate is pending once more. *)
Theorem failed_load_is_remembered_until_cancel
    now1 now2 now3 (w : WorkerInputs) xyz c st what :
  checkAndCorrectTileCoordinates xyz = Some c →
  c ∉ errorSet st →
  memoryCache st !! getFilePathForTile c = None →
  disk st !! diskFileName st c = None →
  keepAlive st = true →
  loadSet st = ∅ →
  loadResult w = LoadThrew (runtime_error what) →
  let st1 := (getTile now1 xyz st).2 in
  let st2 := loadLoopBody w st1 in
  let st3 := cancelPendingRequests st2 in
  (getTile now1 xyz st).1 = Returned None ∧
  getTile now2 xyz st2 = (Thrown (runtime_error "Corrupt tile"), st2) ∧
  (getTile now3 xyz st3).1 = Returned None ∧
  c ∈ loadSet (getTile now3 xyz st3).2.
Proof.
  intros Hok Herr Hmem Hdisk Halive Hidle Hfail st1 st2 st3.
  subst st3 st2 st1.
  rewrite (getTile_miss_step now1 xyz c st) by done. simpl.
  destruct (miss_conditions_stable c st) as (He & Hm & Hd & Hn & Hl).
  remember (enqueue c (log (PlatFileExists (diskFileName st c)) st)) as st1 eqn:Hst1.
  assert (Halive1 : keepAlive st1 = true) by (subst st1; by destruct st).
  assert (Hdir1 : cacheDir st1 = cacheDir st) by (subst st1; by destruct st).
  clear Hst1. rewrite Hidle in Hl.
  destruct (failed_round_members w c st1 what) as (He2 & Hm2 & Hd2 & Hdir2);
    [done|done|by rewrite Hm|done|].
  remember (loadLoopBody w st1) as st2 eqn:Hst2. clear Hst2.
  split; [done|]. split.
  - apply (getTile_corrupt now2 xyz c); [done|].
    rewrite He2. apply elem_of_union_l. by apply elem_of_singleton.
  - assert (He3 : c ∉ errorSet (cancelPendingRequests st2)).
    { destruct st2; simpl. apply not_elem_of_empty. }
    assert (Hm3 : memoryCache (cancelPendingRequests st2) !! getFilePathForTile c = None)
      by (by destruct st2).
    assert (Hd3 : disk (cancelPendingRequests st2)
                    !! diskFileName (cancelPendingRequests st2) c = None).
    { unfold diskFileName in *. destruct st2; simpl in *.
      by rewrite Hd2, Hd, Hdir2, Hdir1. }
    rewrite (getTile_miss_step now3 xyz c (cancelPendingRequests st2) Hok He3 Hm3 Hd3).
    simpl. split; [done|]. apply elem_of_union_l. by apply elem_of_singleton.
Qed.

(** X14: a tile the worker has loaded is served from memory, and from
    disk once the memory cache has been purged: the file is looked up
    under the very name it was stored under, so the request after the
    purge returns what [loadImageFile] makes of the stored bytes and
    enqueues nothing. *)
Theorem loaded_tile_is_served_and_survives_purge
    now1 now2 (w : WorkerInputs) xyz c st img img' :
  checkAndCorrectTileCoordinates xyz = Some c →
  c ∉ errorSet st →
  memoryCache st !! getFilePathForTile c = None →
  loadResult w = Loaded img →
  loadImageFile (encodedData img) = Returned img' →
  let st1 := processCoords w c st in
  (getTile now1 xyz st1).1 = Returned (Some img) ∧
  calls (getTile now1 xyz st1).2 = calls st1 ∧
  (getTile now2 xyz (purge st1)).1 = Returned (Some img') ∧
  loadSet (getTile now2 xyz (purge st1)).2 = ∅.
Proof.
  intros Hok Herr Hmem Hload Hdec st1.
  assert (Hst : st1 =
    storeAndClearEncodedData (diskFileName st c) img
      (set_memoryCache (<[getFilePathForTile c := (img, nowEnter w)]> (memoryCache st))
         (log (SrcLoadTileImage c) st))).
  { subst st1. unfold processCoords. rewrite getFromMemory_miss by done.
    unfold loadAndCacheTile. rewrite Hload.
    rewrite enterMemoryCache_absent by (by destruct st). by destruct st. }
  assert (Herr1 : c ∉ errorSet st1) by (rewrite Hst; by destruct st).
  assert (Hmem1 : memoryCache st1 !! getFilePathForTile c = Some (img, nowEnter w)).
  { rewrite Hst. destruct st; simpl. by rewrite lookup_insert_eq. }
  assert (Herr2 : c ∉ errorSet (purge st1)).
  { destruct st1; simpl. apply not_elem_of_empty. }
  assert (Hmem2 : memoryCache (purge st1) !! getFilePathForTile c = None)
    by (by destruct st1).
  assert (Hdisk2 : disk (purge st1) !! diskFileName (purge st1) c
                   = Some (encodedData img)).
  { rewrite Hst. destruct st; unfold diskFileName; simpl.
    by rewrite lookup_insert_eq. }
  clear Hst. clearbody st1.
  rewrite (getTile_memory_hit now1 xyz c st1 img (nowEnter w) Hok Herr1 Hmem1).
  rewrite (getTile_disk_hit now2 xyz c (purge st1) (encodedData img) img'
             Hok Herr2 Hmem2 Hdisk2 Hdec).
  by destruct st1.
Qed.

(** Whole seconds grow with the span. *)
Lemma expired_mono now1 now2 (e : Image * TimePoint) :
  (0 < ticks_per_second)%Z → (now1 ≤ now2)%Z →
  expired now1 e → expired now2 e.
Proof.
  unfold expired, duration_seconds. intros Hpos Hle Hexp.
  etrans; [exact Hexp|]. apply Z.quot_le_mono; lia.
Qed.

(** X15: [flushCache] only removes entries and touches nothing else, and
    what an earlier flush removed a later one would have removed as well:
    flushing at [now1] and then at a later [now2] gives the state of
    flushing at [now2] alone. *)
Theorem flushCache_twice now1 now2 st :
  (0 < ticks_per_second)%Z →
  (now1 ≤ now2)%Z →
  memoryCache (flushCache now1 st) ⊆ memoryCache st ∧
  flushCache now2 (flushCache now1 st) = flushCache now2 st.
Proof.
  intros Hpos Hle. split.
  - destruct st; simpl. apply map_filter_subseteq.
  - destruct st as [dir mem ls es ka dk cs].
    unfold flushCache, set_memoryCache; simpl. f_equal.
    apply map_eq. intros path. apply option_eq. intros e.
    rewrite !map_lookup_filter_Some. simpl. split.
    + by intros [[Hentry _] Hyoung].
    + intros [Hentry Hyoung]. split_and!; try done.
      intros Hexp. apply Hyoung. by apply (expired_mono now1 now2).
Qed.

Lemma step_errorSet st o :
  keepsErrors o = true → errorSet st ⊆ errorSet (step st o).
Proof.
  destruct o as [now xyz|w| |]; simpl; try discriminate; intros _.
  - getTile_paths now xyz st; by destruct st.
  - apply loadLoopBody_members.
Qed.

(** X16: no request and no round of the worker takes a coordinate out of
    the error set: once a coordinate is errored, every later [getTile] for
    it throws "Corrupt tile", however many requests and worker rounds come
    in between (only [cancelPendingRequests] and [purge] clear the set). *)
Theorem errored_coordinate_stays_errored (ops : list Op) now xyz c st :
  checkAndCorrectTileCoordinates xyz = Some c →
  c ∈ errorSet st →
  Forall (λ o, keepsErrors o = true) ops →
  c ∈ errorSet (run ops st) ∧
  getTile now xyz (run ops st) =
    (Thrown (runtime_error "Corrupt tile"), run ops st).
Proof.
  intros Hok Herr Hops.
  assert (Hin : c ∈ errorSet (run ops st)).
  { revert st Herr. induction Hops as [|o ops Ho _ IH]; intros st Herr; [done|].
    apply IH. by apply (step_errorSet st o Ho). }
  split; [done|]. by apply (getTile_corrupt now xyz c).
Qed.

(** What a round with a cancelled load leaves behind. *)
Lemma cancelled_round_members (w : WorkerInputs) c st1 what :
  keepAlive st1 = true →
  loadSet st1 = {[c]} ∪ ∅ →
  memoryCache st1 !! getFilePathForTile c = None →
  loadResult w = LoadThrew (out_of_range what) →
  errorSet (loadLoopBody w st1) = errorSet st1 ∧
  loadSet (loadLoopBody w st1) = ∅ ∧
  memoryCache (loadLoopBody w st1) !! getFilePathForTile c = None ∧
  disk (loadLoopBody w st1) = disk st1 ∧
  cacheDir (loadLoopBody w st1) = cacheDir st1 ∧
  calls (loadLoopBody w st1) = calls st1 ++ [SrcResumeLoading; SrcLoadTileImage c].
Proof.
  intros Halive Hls Hmem Hfail.
  rewrite (loadLoopBody_after_first_miss w c st1) by done.
  unfold processCoords.
  rewrite getFromMemory_miss by (by destruct st1).
  unfold loadAndCacheTile. rewrite Hfail.
  destruct st1; simpl in *. subst. split_and!; try done.
  - rewrite (right_id_L ∅ (∪)). apply difference_diag_L.
  - rewrite map_lookup_filter_None. by left.
  - by rewrite <- app_assoc.
Qed.

(** X23: a cancelled load is forgotten.  On an idle live cache a first
    request for a tile that is nowhere misses; if [loadTileImage] then
    throws [std::out_of_range] in the worker's round, the coordinate is
    afterwards neither pending nor errored nor cached, and the next
    request misses and enqueues it again. *)
Theorem cancelled_load_is_forgotten now1 now2 (w : WorkerInputs) xyz c st what :
  checkAndCorrectTileCoordinates xyz = Some c →
  c ∉ errorSet st →
  memoryCache st !! getFilePathForTile c = None →
  disk st !! diskFileName st c = None →
  keepAlive st = true →
  loadSet st = ∅ →
  loadResult w = LoadThrew (out_of_range what) →
  let st1 := (getTile now1 xyz st).2 in
  let st2 := loadLoopBody w st1 in
  loadSet st2 = ∅ ∧
  errorSet st2 = errorSet st ∧
  memoryCache st2 !! getFilePathForTile c = None ∧
  (getTile now2 xyz st2).1 = Returned None ∧
  loadSet (getTile now2 xyz st2).2 = {[c]} ∪ ∅.
Proof.
  intros Hok Herr Hmem Hdisk Halive Hidle Hfail st1 st2.
  subst st2 st1.
  rewrite (getTile_miss_step now1 xyz c st) by done. simpl.
  destruct (miss_conditions_stable c st) as (He & Hm & Hd & Hn & Hl).
  remember (enqueue c (log (PlatFileExists (diskFileName st c)) st)) as st1 eqn:Hst1.
  assert (Halive1 : keepAlive st1 = true) by (subst st1; by destruct st).
  assert (Hdir1 : cacheDir st1 = cacheDir st) by (subst st1; by destruct st).
  clear Hst1. rewrite Hidle in Hl.
  destruct (cancelled_round_members w c st1 what)
    as (He2 & Hl2 & Hm2 & Hd2 & Hdir2 & _); [done|done|by rewrite Hm|done|].
  remember (loadLoopBody w st1) as st2 eqn:Hst2. clear Hst2.
  assert (He3 : c ∉ errorSet st2) by (by rewrite He2, He).
  assert (Hd3 : disk st2 !! diskFileName st2 c = None).
  { unfold diskFileName in *. by rewrite Hd2, Hd, Hdir2, Hdir1. }
  rewrite (getTile_miss_step now2 xyz c st2 Hok He3 Hm2 Hd3).
  split_and!; try done.
  - by rewrite He2.
  - destruct st2; simpl in *. by subst.
Qed.

(** The steps of the cache keep it keyed by corrected coordinates. *)
Lemma keyed_insert_into c img (t : TimePoint) st st' :
  corrected c → keyedByCorrected st → keyedByCorrected st' →
  keyedByCorrected
    (set_memoryCache (<[getFilePathForTile c := (img, t)]> (memoryCache st)) st').
Proof.
  intros Hc (_ & _ & _ & Hm) (Hl & He & Hs & _).
  destruct st, st'; unfold keyedByCorrected; simpl in *.
  split_and!; try done. intros path Hsome.
  destruct (decide (getFilePathForTile c = path)) as [<-|Hne].
  - by exists c.
  - rewrite lookup_insert_ne in Hsome by done. by apply Hm.
Qed.

Lemma keyed_insert c img (t : TimePoint) st :
  corrected c → keyedByCorrected st →
  keyedByCorrected
    (set_memoryCache (<[getFilePathForTile c := (img, t)]> (memoryCache st)) st).
Proof. intros Hc Hkeyed. by apply keyed_insert_into. Qed.

Lemma keyed_log call st :
  (∀ c, call = SrcLoadTileImage c → corrected c) →
  keyedByCorrected st → keyedByCorrected (log call st).
Proof.
  intros Hcall (Hl & He & Hs & Hm). destruct st; unfold keyedByCorrected; simpl in *.
  split_and!; try done.
  intros c [Hin|Hin%list_elem_of_singleton]%elem_of_app; [by apply Hs|].
  by apply Hcall.
Qed.

Lemma keyed_flush now st :
  keyedByCorrected st → keyedByCorrected (flushCache now st).
Proof.
  intros (Hl & He & Hs & Hm). destruct st; unfold keyedByCorrected; simpl in *.
  split_and!; try done. intros path [e Hentry].
  apply map_lookup_filter_Some in Hentry as [Hentry _]. apply Hm. by exists e.
Qed.

Lemma keyed_getTile now xyz st :
  keyedByCorrected st → keyedByCorrected (getTile now xyz st).2.
Proof.
  intros Hkeyed.
  getTile_paths now xyz st; simpl; try done.
  - apply keyed_insert; [by exists xyz|done].
  - apply keyed_insert_into; [by exists xyz|done|].
    by do 2 (apply keyed_log; [done|]).
  - by do 2 (apply keyed_log; [done|]).
  - apply keyed_log; [done|].
    assert (Hk : keyedByCorrected (log (PlatFileExists (diskFileName st c)) st))
      by by apply keyed_log.
    destruct Hk as (Hl & He & Hs & Hm).
    destruct st; unfold keyedByCorrected; simpl in *. split_and!; try done.
    intros c' [->%elem_of_singleton|Hin]%elem_of_union; [by exists xyz|by apply Hl].
Qed.

Lemma keyed_processCoords (w : WorkerInputs) c st :
  corrected c → keyedByCorrected st → keyedByCorrected (processCoords w c st).
Proof.
  intros Hc Hkeyed. unfold processCoords, getFromMemory.
  destruct (memoryCache st !! getFilePathForTile c) as [[img t]|] eqn:Hmem.
  - by apply keyed_insert.
  - unfold loadAndCacheTile, storeAndClearEncodedData.
    assert (Hk : keyedByCorrected (log (SrcLoadTileImage c) st)).
    { apply keyed_log; [|done]. by intros c' [= <-]. }
    destruct (loadResult w) as [img|[what|what]]; [| |done].
    + rewrite enterMemoryCache_absent by (by destruct st).
      apply keyed_log; [done|].
      assert (Hk2 : keyedByCorrected
        (set_memoryCache
           (<[getFilePathForTile c := (img, nowEnter w)]>
              (memoryCache (log (SrcLoadTileImage c) st)))
           (log (SrcLoadTileImage c) st))) by by apply keyed_insert.
      destruct Hk2 as (Hl & He & Hs & Hm). by destruct st.
    + destruct Hk as (Hl & He & Hs & Hm). destruct st; unfold keyedByCorrected; simpl in *.
      split_and!; try done.
      intros c' [->%elem_of_singleton|Hin]%elem_of_union; [done|by apply He].
Qed.

Lemma keyed_step st o : keyedByCorrected st → keyedByCorrected (step st o).
Proof.
  intros Hkeyed. destruct o as [now xyz|w| |]; simpl.
  - by apply keyed_getTile.
  - unfold loadLoopBody. destruct (keepAlive st); simpl; [|done].
    destruct (loadSet_begin (loadSet st)) as [c|] eqn:Hbegin;
      [|by apply keyed_flush].
    apply keyed_flush, keyed_processCoords.
    + apply (proj1 Hkeyed). by apply loadSet_begin_elem_of.
    + apply keyed_log; [done|].
      destruct Hkeyed as (Hl & He & Hs & Hm). destruct st; unfold keyedByCorrected; simpl in *.
      split_and!; try done.
      intros c' Hin%elem_of_difference. apply Hl, Hin.
  - destruct Hkeyed as (Hl & He & Hs & Hm). destruct st; unfold keyedByCorrected; simpl in *.
    split_and!; try done;
      try (by intros c Hin%not_elem_of_empty).
    intros c [Hin|Hin%list_elem_of_singleton]%elem_of_app; [by apply Hs|done].
  - destruct Hkeyed as (Hl & He & Hs & Hm). destruct st; unfold keyedByCorrected; simpl in *.
    split_and!; try done;
      try (by intros c Hin%not_elem_of_empty).
    + intros c [Hin|Hin%list_elem_of_singleton]%elem_of_app; [by apply Hs|done].
    + intros path [e Hentry]. by rewrite lookup_empty in Hentry.
Qed.

(** X24: the cache is keyed by corrected coordinates throughout.  If the
    pending and errored coordinates, the coordinates of the
    [loadTileImage] calls and the artifact paths of the memory cache all
    come from coordinates that [checkAndCorrectTileCoordinates] handed back
    (as in a new cache, where there are none), then so they do after any
    sequence of [getTile], worker rounds, [cancelPendingRequests] and
    [purge]: the tile source is never asked to load a coordinate it has not
    corrected itself. *)
Theorem cache_is_keyed_by_corrected_coordinates (ops : list Op) st :
  keyedByCorrected st →
  keyedByCorrected (run ops st) ∧
  ∀ c, SrcLoadTileImage c ∈ calls (run ops st) →
       ∃ xyz, checkAndCorrectTileCoordinates xyz = Some c.
Proof.
  intros Hkeyed.
  assert (Hrun : keyedByCorrected (run ops st)).
  { revert st Hkeyed. induction ops as [|o ops IH]; intros st Hkeyed; [done|].
    apply IH. by apply keyed_step. }
  split; [done|]. intros c Hin.
  destruct Hrun as (_ & _ & Hs & _). by apply Hs.
Qed.

End MoreCacheFacts.

(** * Further properties of the rasterizer's page slot *)

Section MoreRasterizerFacts.
Import TileCache Rasterizer RasterizerRun.
Implicit Types (st : Rasterizer.State) (log : list FzCall).

Lemma disciplined_nil : disciplined [].
Proof.
  intros before call Hpre. apply prefix_nil_inv in Hpre.
  by destruct before.
Qed.

Lemma disciplined_snoc log call :
  disciplined log →
  match call with
  | FzDropDisplayList l => l ∈ live log
  | FzNewDisplayListFromPageNumber _ l =>
      ∀ page', FzNewDisplayListFromPageNumber page' l ∉ log
  end →
  disciplined (log ++ [call]).
Proof.
  intros Hlog Hcall before call' Hpre.
  apply prefix_snoc_cases in Hpre as [Heq|Hpre]; [|by apply Hlog].
  by apply app_inj_tail in Heq as [-> ->].
Qed.

(** The invariant of the page slot together with the discipline of the
    log. *)
Lemma freeCurrentPage_disciplined st :
  slot_owns_live st → disciplined (fitz st) →
  numbered_below (allocations st) (fitz st) →
  disciplined (fitz (freeCurrentPage st)) ∧
  numbered_below (allocations (freeCurrentPage st)) (fitz (freeCurrentPage st)).
Proof.
  intros (Hlive & _ & _) Hdisc Hnum. unfold freeCurrentPage.
  destruct (currentPageList st) as [l|] eqn:Hslot; simpl; [|done].
  split.
  - apply disciplined_snoc; [done|]. rewrite Hlive. by apply elem_of_singleton.
  - intros page l' [Hin|Hin%list_elem_of_singleton]%elem_of_app; [|done].
    by apply (Hnum page).
Qed.

Lemma loadPage_disciplined fz page st :
  slot_owns_live st → disciplined (fitz st) →
  numbered_below (allocations st) (fitz st) →
  disciplined (fitz (loadPage fz page st).2) ∧
  numbered_below (allocations (loadPage fz page st).2) (fitz (loadPage fz page st).2).
Proof.
  intros Hinv Hdisc Hnum. unfold loadPage.
  destruct (bool_decide (page = currentPageNum st) &&
            bool_decide (currentPageList st ≠ None)); [done|].
  destruct (freeCurrentPage_disciplined st Hinv Hdisc Hnum) as [Hdisc1 Hnum1].
  destruct fz as [|message]; simpl; [|done].
  split.
  - apply disciplined_snoc; [done|].
    intros page' Hin. apply Hnum1 in Hin. lia.
  - intros page' l [Hin|Hin%list_elem_of_singleton]%elem_of_app.
    + apply Hnum1 in Hin. lia.
    + injection Hin as _ ->. lia.
Qed.

Lemma run_disciplined ops st :
  slot_owns_live st → disciplined (fitz st) →
  numbered_below (allocations st) (fitz st) →
  slot_owns_live (run ops st) ∧ disciplined (fitz (run ops st)).
Proof.
  revert st. induction ops as [|o ops IH]; intros st Hinv Hdisc Hnum; [done|].
  simpl. apply IH.
  - by apply step_preserves.
  - destruct o as [fz render page|]; simpl.
    + unfold loadTile.
      pose proof (loadPage_disciplined fz page st Hinv Hdisc Hnum) as [Hd _].
      by destruct (loadPage fz page st) as [[[]|e] st1].
    + by apply freeCurrentPage_disciplined.
  - destruct o as [fz render page|]; simpl.
    + unfold loadTile.
      pose proof (loadPage_disciplined fz page st Hinv Hdisc Hnum) as [_ Hn].
      by destruct (loadPage fz page st) as [[[]|e] st1].
    + by apply freeCurrentPage_disciplined.
Qed.

(** X17: the rasterizer never drops a display list twice and never drops
    one it has not made: in every history of [loadTile] and
    [freeCurrentPage] calls from construction on, each
    [fz_drop_display_list] releases a list that is live at that point, and
    each list made is a new one.  The destructor then leaves no list
    live. *)
Theorem display_lists_are_dropped_once pages firstPageNum ops :
  disciplined (fitz (run ops (initial pages firstPageNum))) ∧
  disciplined (fitz (destroy (run ops (initial pages firstPageNum)))) ∧
  live (fitz (destroy (run ops (initial pages firstPageNum)))) = ∅ ∧
  currentPageList (destroy (run ops (initial pages firstPageNum))) = None.
Proof.
  assert (Hinit : slot_owns_live (initial pages firstPageNum))
    by apply slot_owns_live_initial.
  assert (Hnum : numbered_below 0 (fitz (initial pages firstPageNum)))
    by (by intros page l Hin%elem_of_nil).
  destruct (run_disciplined (ops ++ [OpFreeCurrentPage]) (initial pages firstPageNum)
              Hinit disciplined_nil Hnum) as [_ Hdestroy].
  destruct (run_disciplined ops (initial pages firstPageNum)
              Hinit disciplined_nil Hnum) as [Hinv Hdisc].
  unfold run in Hdestroy. rewrite foldl_snoc in Hdestroy.
  destruct (freeCurrentPage_spec _ Hinv) as (_ & Hnone & Hempty & _).
  by split_and!.
Qed.

Lemma freeCurrentPage_empties_slot st :
  currentPageList (freeCurrentPage st) = None.
Proof. unfold freeCurrentPage. by destruct (currentPageList st) eqn:Hslot. Qed.

Lemma loadPage_builds_on_empty_slot page st :
  currentPageList st = None →
  currentPageList (loadPage FzOk page st).2 ≠ None.
Proof.
  intros Hnone. unfold loadPage.
  rewrite (bool_decide_eq_false_2 (currentPageList st ≠ None)) by (by intros []).
  by rewrite andb_false_r.
Qed.

(** X18: whenever [loadPage] returns, the slot holds a display list and
    the current page is the requested one, whatever the state before: the
    drawing that follows in [loadTile] never runs a null list or the list
    of another page.  When [loadTile] does not get that far it throws
    "Cannot parse page: ..." and the slot is empty, so that the next call
    builds again even for the same page number. *)
Theorem loadPage_returns_with_the_page fz (render : outcome unit) page st :
  match (loadPage fz page st).1 with
  | Returned _ =>
      currentPageList (loadPage fz page st).2 ≠ None ∧
      currentPageNum (loadPage fz page st).2 = page ∧
      loadTile fz render page st = (render, (loadPage fz page st).2)
  | Thrown e =>
      (∃ message, fz = FzCaught message ∧
                  e = runtime_error ("Cannot parse page: " +:+ message)) ∧
      currentPageList (loadPage fz page st).2 = None ∧
      loadTile fz render page st = (Thrown e, (loadPage fz page st).2) ∧
      ∀ page', currentPageList (loadPage FzOk page' (loadPage fz page st).2).2 ≠ None
  end.
Proof.
  unfold loadTile.
  assert (Hcases :
    (page = currentPageNum st ∧ currentPageList st ≠ None ∧
     loadPage fz page st = (Returned (), st)) ∨
    (fz = FzOk ∧
     loadPage fz page st =
       (Returned (),
        mkState (totalPages (freeCurrentPage st)) page
                (Some (allocations (freeCurrentPage st)))
                (S (allocations (freeCurrentPage st)))
                (fitz (freeCurrentPage st) ++
                   [FzNewDisplayListFromPageNumber page
                      (allocations (freeCurrentPage st))]))) ∨
    (∃ message, fz = FzCaught message ∧
       loadPage fz page st =
         (Thrown (runtime_error ("Cannot parse page: " +:+ message)),
          freeCurrentPage st))).
  { unfold loadPage.
    destruct (decide (page = currentPageNum st)) as [Hpage|Hpage];
      destruct (decide (currentPageList st ≠ None)) as [Hslot|Hslot].
    - left. by rewrite (bool_decide_eq_true_2 _ Hpage), (bool_decide_eq_true_2 _ Hslot).
    - right. rewrite (bool_decide_eq_false_2 _ Hslot), andb_false_r.
      destruct fz as [|message]; [by left|right; by exists message].
    - right. rewrite (bool_decide_eq_false_2 _ Hpage). simpl.
      destruct fz as [|message]; [by left|right; by exists message].
    - right. rewrite (bool_decide_eq_false_2 _ Hpage). simpl.
      destruct fz as [|message]; [by left|right; by exists message]. }
  destruct Hcases as [(Hpage & Hslot & ->)|[[-> ->]|(message & -> & ->)]]; simpl.
  - by split_and!.
  - by split_and!.
  - split_and!.
    + by exists message.
    + apply freeCurrentPage_empties_slot.
    + done.
    + intros page'. apply loadPage_builds_on_empty_slot, freeCurrentPage_empties_slot.
Qed.

(** X19: the display list of a page is built once for all the tiles of the
    page: after a [loadTile] of page [page] that got its list, any number
    of further [loadTile] calls for that page, whatever fitz would do and
    however the drawing ends, leave the state as it is, so that the log
    gains no call. *)
Theorem tiles_of_a_page_share_one_list fz (render : outcome unit) page ops st :
  Forall (isTileOf page) ops →
  (loadPage fz page st).1 = Returned () →
  run ops (loadTile fz render page st).2 = (loadTile fz render page st).2.
Proof.
  intros Htiles Hloaded.
  assert (Hst1 : currentPageList (loadTile fz render page st).2 ≠ None ∧
                 currentPageNum (loadTile fz render page st).2 = page).
  { unfold loadTile, loadPage in *.
    destruct (bool_decide (page = currentPageNum st)) eqn:Hpage;
      destruct (bool_decide (currentPageList st ≠ None)) eqn:Hslot; simpl in *;
      try (destruct fz; simpl in *; [done|discriminate]).
    apply bool_decide_eq_true in Hpage. apply bool_decide_eq_true in Hslot.
    done. }
  destruct Hst1 as [Hlist Hnum].
  remember (loadTile fz render page st).2 as st1 eqn:Hst1. clear Hst1 Hloaded.
  induction Htiles as [|o ops Ho _ IH]; [done|].
  simpl. destruct o as [fz' render' page'|]; [|done]. simpl in Ho. subst page'.
  assert (Hsame : step st1 (OpLoadTile fz' render' page) = st1).
  { simpl. unfold loadTile, loadPage.
    rewrite (bool_decide_eq_true_2 _ (eq_sym Hnum)), (bool_decide_eq_true_2 _ Hlist).
    done. }
  by rewrite Hsame.
Qed.

End MoreRasterizerFacts.

(** * Properties of the document side of the rasterizer *)

Section DocumentFacts.
Import TileCache Rasterizer Document.
Context {Rect : Type}.
Implicit Types (fz : Fitz Rect) (d : Doc Rect).

Lemma loadedPages_snoc (calls : list DocCall) call :
  loadedPages (calls ++ [call]) = pages_step (loadedPages calls) call.
Proof. unfold loadedPages. by rewrite foldl_snoc. Qed.

Lemma documentDrops_snoc (calls : list DocCall) call :
  documentDrops (calls ++ [call]) =
    documentDrops calls + (if decide (call = FzDropDocument) then 1 else 0).
Proof.
  unfold documentDrops. rewrite filter_app, length_app. f_equal.
  rewrite filter_cons. by destruct (decide (call = FzDropDocument)).
Qed.

(** The loop over the pages, when it runs to its end. *)
Lemma loadPages_returned fz n : ∀ i d d',
  loadPages fz n i d = (Returned (), d') →
  docPages d' = docPages d ∧
  (∃ rects, pageRects d' = pageRects d ++ rects ∧ length rects = n ∧
     ∀ k, k < n → rects !! k = boundPage fz (i + Z.of_nat k)%Z) ∧
  (loadedPages (docCalls d) = ∅ → loadedPages (docCalls d') = ∅) ∧
  documentDrops (docCalls d') = documentDrops (docCalls d).
Proof.
  induction n as [|n IH]; intros i d d' Hrun; simpl in Hrun.
  - injection Hrun as <-. split_and!; try done.
    exists []. split_and!; [by rewrite app_nil_r|done|lia].
  - destruct (boundPage fz i) as [rect|] eqn:Hpage; [|done].
    apply IH in Hrun as (Hpages & (rects & Hrects & Hlen & Hnth) & Hloaded & Hdrops).
    simpl in *. split_and!.
    + done.
    + exists (rect :: rects). split_and!.
      * by rewrite Hrects, <- app_assoc.
      * simpl. by rewrite Hlen.
      * intros [|k] Hk; simpl.
        -- by rewrite Z.add_0_r.
        -- rewrite Hnth by lia. f_equal. lia.
    + intros Hnone. apply Hloaded.
      rewrite !loadedPages_snoc, Hnone. simpl.
      rewrite (right_id_L ∅ (∪)). apply difference_diag_L.
    + rewrite Hdrops, !documentDrops_snoc. simpl. lia.
Qed.

(** The loop over the pages, when a page does not load. *)
Lemma loadPages_thrown fz n : ∀ i d d' e,
  loadPages fz n i d = (Thrown e, d') →
  e = runtime_error "Couldn't load page" ∧
  (∃ k, k < n ∧ boundPage fz (i + Z.of_nat k)%Z = None) ∧
  (loadedPages (docCalls d) = ∅ → loadedPages (docCalls d') = ∅) ∧
  documentDrops (docCalls d') = S (documentDrops (docCalls d)) ∧
  last (docCalls d') = Some FzDropDocument.
Proof.
  induction n as [|n IH]; intros i d d' e Hrun; simpl in Hrun; [done|].
  destruct (boundPage fz i) as [rect|] eqn:Hpage.
  - apply IH in Hrun as (He & (k & Hk & Hnull) & Hloaded & Hdrops & Hlast).
    simpl in *. split_and!; try done.
    + exists (S k). split; [lia|]. rewrite <- Hnull. f_equal. lia.
    + intros Hnone. apply Hloaded.
      rewrite !loadedPages_snoc, Hnone. simpl.
      rewrite (right_id_L ∅ (∪)). apply difference_diag_L.
    + rewrite Hdrops, !documentDrops_snoc. simpl. lia.
  - injection Hrun as <- <-. simpl. split_and!; try done.
    + exists 0. split; [lia|]. by rewrite Z.add_0_r.
    + intros Hnone. by rewrite !loadedPages_snoc, Hnone.
    + rewrite !documentDrops_snoc. simpl. lia.
    + by rewrite last_snoc.
Qed.

(** X20: when [loadDocument] returns, the page count is what fitz
    counted, there is one page rectangle for every page, in page order,
    each the bounds fitz gave for that page; every page that was loaded for
    its bounds has been dropped again, and the document has not been
    dropped. *)
Theorem loadDocument_caches_every_page fz utf8Path d' :
  loadDocument fz utf8Path noDocument = (Returned (), d') →
  countPages fz = Counted (getPageCount d') ∧
  length (pageRects d') = Z.to_nat (getPageCount d') ∧
  (∀ page, (0 ≤ page < getPageCount d')%Z →
     pageRects d' !! Z.to_nat page = boundPage fz page ∧
     is_Some (boundPage fz page)) ∧
  loadedPages (docCalls d') = ∅ ∧
  documentDrops (docCalls d') = 0.
Proof.
  unfold loadDocument. intros Hrun.
  destruct (openDocument fz) as [|message]; [|done].
  destruct (countPages fz) as [n|message]; [|done].
  apply loadPages_returned in Hrun
    as (Hpages & (rects & Hrects & Hlen & Hnth) & Hloaded & Hdrops).
  simpl in *. unfold getPageCount. rewrite Hpages, Hrects. split_and!.
  - done.
  - done.
  - intros page Hpage.
    assert (Hk : Z.to_nat page < Z.to_nat n) by lia.
    specialize (Hnth _ Hk). rewrite Z2Nat.id, Z.add_0_l in Hnth by lia.
    split; [done|]. rewrite <- Hnth. apply lookup_lt_is_Some. lia.
  - by apply Hloaded.
  - by rewrite Hdrops.
Qed.

(** X21: when [loadDocument] throws, no page stays loaded.  If the
    document had been opened, it is dropped exactly once, as the last call
    before the throw; the message tells which step failed. *)
Theorem loadDocument_failure_releases fz utf8Path d' e :
  loadDocument fz utf8Path noDocument = (Thrown e, d') →
  loadedPages (docCalls d') = ∅ ∧
  match openDocument fz with
  | FzCaught message =>
      e = runtime_error ("Cannot open document: " +:+ message) ∧
      docCalls d' = [FzOpenDocument utf8Path]
  | FzOk =>
      documentDrops (docCalls d') = 1 ∧
      last (docCalls d') = Some FzDropDocument ∧
      match countPages fz with
      | CountCaught message =>
          e = runtime_error ("Cannot count pages: " +:+ message)
      | Counted n =>
          e = runtime_error "Couldn't load page" ∧
          ∃ page, (0 ≤ page < n)%Z ∧ boundPage fz page = None
      end
  end.
Proof.
  unfold loadDocument. intros Hrun.
  destruct (openDocument fz) as [|message].
  - destruct (countPages fz) as [n|message].
    + apply loadPages_thrown in Hrun
        as (He & (k & Hk & Hnull) & Hloaded & Hdrops & Hlast).
      simpl in *. split_and!; try done.
      * by apply Hloaded.
      * exists (Z.of_nat k). split; [lia|]. by rewrite Z.add_0_l in Hnull.
    + by injection Hrun as <- <-.
  - by injection Hrun as <- <-.
Qed.

(** X22: on a rasterizer whose document has loaded, [getPageWidth] and
    [getPageHeight] return exactly for the page numbers from 0 up to
    [getPageCount() - 1], and then with the scaled size of that page's
    bounds; for every other page number, negative ones included, they
    throw [std::out_of_range]. *)
Theorem getPageSize_in_range_iff fz utf8Path d' (scaled : Rect → Z → Z) page zoom :
  loadDocument fz utf8Path noDocument = (Returned (), d') →
  ((0 ≤ page < getPageCount d')%Z →
     ∃ rect, boundPage fz page = Some rect ∧
             getPageSize scaled page zoom d' = Returned (scaled rect zoom)) ∧
  (¬ (0 ≤ page < getPageCount d')%Z →
     ∃ what, getPageSize scaled page zoom d' = Thrown (out_of_range what)).
Proof.
  unfold loadDocument. intros Hrun.
  destruct (openDocument fz) as [|message]; [|done].
  destruct (countPages fz) as [n|message]; [|done].
  apply loadPages_returned in Hrun
    as (Hpages & (rects & Hrects & Hlen & Hnth) & _).
  simpl in *. unfold getPageCount, getPageSize, pageRects_at.
  rewrite Hpages, Hrects. simpl. split.
  - intros Hpage. rewrite bool_decide_eq_true_2 by lia.
    assert (Hk : Z.to_nat page < Z.to_nat n) by lia.
    specialize (Hnth _ Hk). rewrite Z2Nat.id, Z.add_0_l in Hnth by lia.
    destruct (rects !! Z.to_nat page) as [rect|] eqn:Hrect.
    + exists rect. by split.
    + apply lookup_ge_None in Hrect. lia.
  - intros Hpage. exists "vector::at".
    destruct (bool_decide (0 ≤ page)%Z) eqn:Hsign; [|done].
    apply bool_decide_eq_true in Hsign.
    rewrite (proj2 (lookup_ge_None rects (Z.to_nat page))); [done|lia].
Qed.

End DocumentFacts.

(** * The clip boxes of the tiles *)

Section ClipBoxFacts.
Import ClipBox.

Lemma as_int_Some z v : as_int z = Some v ↔ int_range z ∧ v = z.
Proof.
  unfold as_int. destruct (bool_decide (int_range z)) eqn:Hrange.
  - apply bool_decide_eq_true in Hrange. split; [by intros [= ->]|by intros [_ ->]].
  - apply bool_decide_eq_false in Hrange. split; [done|by intros [? _]].
Qed.

Lemma clipBox_Some tileSize x y b :
  clipBox tileSize x y = Some b ↔
  int_range (tileSize * x) ∧ int_range (tileSize * y) ∧
  int_range (tileSize * x + tileSize) ∧ int_range (tileSize * y + tileSize) ∧
  b = mkIRect (tileSize * x) (tileSize * y)
              (tileSize * x + tileSize) (tileSize * y + tileSize).
Proof.
  unfold clipBox, int_mul, int_add. split.
  - intros Hbox.
    destruct (as_int (tileSize * x)) as [sx|] eqn:Hsx; simpl in Hbox; [|done].
    destruct (as_int (tileSize * y)) as [sy|] eqn:Hsy; simpl in Hbox; [|done].
    destruct (as_int (sx + tileSize)) as [r|] eqn:Hr; simpl in Hbox; [|done].
    destruct (as_int (sy + tileSize)) as [bt|] eqn:Hbt; simpl in Hbox; [|done].
    apply as_int_Some in Hsx as [? ->]. apply as_int_Some in Hsy as [? ->].
    apply as_int_Some in Hr as [? ->]. apply as_int_Some in Hbt as [? ->].
    by injection Hbox as <-.
  - intros (Hsx & Hsy & Hr & Hbt & ->).
    rewrite (proj2 (as_int_Some (tileSize * x) _) (conj Hsx eq_refl)). simpl.
    rewrite (proj2 (as_int_Some (tileSize * y) _) (conj Hsy eq_refl)). simpl.
    rewrite (proj2 (as_int_Some (tileSize * x + tileSize) _) (conj Hr eq_refl)). simpl.
    by rewrite (proj2 (as_int_Some (tileSize * y + tileSize) _) (conj Hbt eq_refl)).
Qed.

(** X25: the clip boxes of [loadTile] are squares of [tileSize] pixels
    that tile the plane without gap or overlap: a pixel (px, py) with
    non-negative coordinates, far enough from the end of the [int] range,
    lies in the clip box of tile (px / tileSize, py / tileSize), and in
    the clip box of no other tile. *)
Theorem clip_boxes_tile_the_plane tileSize px py :
  (0 < tileSize)%Z →
  (0 ≤ px)%Z → (0 ≤ py)%Z →
  (px + tileSize < 2 ^ 31)%Z → (py + tileSize < 2 ^ 31)%Z →
  (∃ b, clipBox tileSize (px / tileSize) (py / tileSize) = Some b ∧
        covers b px py ∧
        (x1 b - x0 b = tileSize)%Z ∧ (y1 b - y0 b = tileSize)%Z) ∧
  (∀ x y b, clipBox tileSize x y = Some b → covers b px py →
            x = (px / tileSize)%Z ∧ y = (py / tileSize)%Z).
Proof.
  intros Hsize Hpx Hpy Hxmax Hymax.
  pose proof (Z.mul_div_le px tileSize Hsize) as Hxlo.
  pose proof (Z.mul_div_le py tileSize Hsize) as Hylo.
  pose proof (Z.mul_succ_div_gt px tileSize Hsize) as Hxhi.
  pose proof (Z.mul_succ_div_gt py tileSize Hsize) as Hyhi.
  pose proof (Z.div_pos px tileSize Hpx Hsize) as Hxq.
  pose proof (Z.div_pos py tileSize Hpy Hsize) as Hyq.
  split.
  - eexists. split.
    + apply clipBox_Some. unfold int_range. split_and!; [nia..|done].
    + unfold covers; simpl. split_and!; lia.
  - intros x y b Hbox Hcov.
    apply clipBox_Some in Hbox as (_ & _ & _ & _ & ->).
    unfold covers in Hcov; simpl in Hcov. destruct Hcov as [[? ?] [? ?]].
    split.
    + apply (Z.div_unique px tileSize x (px - tileSize * x)); lia.
    + apply (Z.div_unique py tileSize y (py - tileSize * y)); lia.
Qed.

End ClipBoxFacts.

(** * The further theorems at work on concrete inputs *)

Section MoreInstances.
Import TileCache CacheRun Document ClipBox Demo DemoMore.

Local Ltac compute_it := vm_compute; first [reflexivity | done | lia].

Local Ltac not_member :=
  first [ apply not_elem_of_empty
        | intros Hin; apply elem_of_singleton in Hin; discriminate Hin
        | compute_it ].

(** Tile (3,4,5) of the busy cache comes from its file and is cached. *)
Lemma getTile_hit_is_backed_and_cached_witness :
  ∃ c, memoryCache (getTile (40 * second)%Z (3, 4, 5)%Z busy).2
         !! getFilePathForTile c = Some (34, (40 * second)%Z).
Proof.
  destruct (getTile_hit_is_backed_and_cached (IL := images) (40 * second)%Z (3, 4, 5)%Z busy 34)
    as (c & _ & _ & _ & Hcached & _); [compute_it|].
  by exists c.
Defined.

(** The errored tile (7,0,3): the throw leaves the cache alone. *)
Lemma getTile_throw_changes_nothing_witness :
  memoryCache (getTile (40 * second)%Z (15, 0, 3)%Z busy).2 = memoryCache busy ∧
  loadSet (getTile (40 * second)%Z (15, 0, 3)%Z busy).2 = loadSet busy.
Proof.
  destruct (getTile_throw_changes_nothing (IL := images) (40 * second)%Z (15, 0, 3)%Z busy
              (runtime_error "Corrupt tile")) as (Hmem & Hload & _); [compute_it|].
  by split.
Defined.

(** Tile (3,4,5) twice: from disk, then from memory. *)
Lemma getTile_disk_hit_then_memory_hit_witness :
  (getTile (41 * second)%Z (3, 4, 5)%Z
     (getTile (40 * second)%Z (3, 4, 5)%Z busy).2).1 = Returned (Some 34) ∧
  calls (getTile (41 * second)%Z (3, 4, 5)%Z
           (getTile (40 * second)%Z (3, 4, 5)%Z busy).2).2
    = calls (getTile (40 * second)%Z (3, 4, 5)%Z busy).2.
Proof.
  destruct (getTile_disk_hit_then_memory_hit (IL := images) (40 * second)%Z (41 * second)%Z
              (3, 4, 5)%Z (3, 4, 5)%Z busy (Some 34) 34)
    as (_ & Hhit & Hcalls & _);
    [compute_it | not_member | compute_it | compute_it | compute_it |].
  by split.
Defined.

(** The busy cache has one pending coordinate; a round takes it. *)
Lemma loadLoopBody_takes_one_coordinate_witness :
  ∃ c, c ∈ loadSet busy ∧
       loadSet (loadLoopBody loadsFive busy) = loadSet busy ∖ {[c]}.
Proof.
  destruct (loadLoopBody_takes_one_coordinate (IL := images) loadsFive busy)
    as (c & Hin & Hset & _).
  - reflexivity.
  - intros Hempty. apply (not_elem_of_empty (C := gset TileCoords) (2, 3, 4)%Z).
    rewrite <- Hempty. by apply elem_of_singleton.
  - by exists c.
Defined.

Lemma workerRounds_drain_loadSet_witness :
  loadSet (workerRounds [loadsFive; loadsSix] busy) = ∅.
Proof.
  destruct (workerRounds_drain_loadSet (IL := images)
              [loadsFive; loadsSix] busy) as [_ Hdrain].
  - reflexivity.
  - apply Hdrain. change (loadSet busy) with ({[ (2, 3, 4)%Z ]} : gset TileCoords).
    rewrite size_singleton. simpl. lia.
Defined.

Lemma idle_round_only_flushes_witness :
  loadLoopBody loadsFive fresh = flushCache (7 * second)%Z fresh.
Proof.
  destruct (idle_round_only_flushes (IL := images) loadsFive fresh)
    as (_ & Hflush & _); [reflexivity|reflexivity|].
  exact Hflush.
Defined.

Lemma hasWork_after_miss_and_cancel_witness :
  hasWork (getTile 1%Z (9, 1, 3)%Z fresh).2 = true ∧
  hasWork (cancelPendingRequests busy) = false.
Proof.
  destruct (hasWork_after_miss_and_cancel (IL := images) 1%Z (9, 1, 3)%Z fresh) as [Hmiss _].
  destruct (hasWork_after_miss_and_cancel (IL := images) 1%Z (9, 1, 3)%Z busy) as [_ Hcancel].
  split.
  - apply Hmiss. compute_it.
  - apply Hcancel. reflexivity.
Defined.

(** Tiles (2,3,4) and (3,3,4) of the atlas source share a file. *)
Lemma same_artifact_is_loaded_once_witness :
  calls (processCoords (TS := atlas) loadsSix (3, 3, 4)%Z
           (flushCache (7 * second)%Z
              (processCoords (TS := atlas) loadsFive (2, 3, 4)%Z fresh)))
  = calls (flushCache (7 * second)%Z
             (processCoords (TS := atlas) loadsFive (2, 3, 4)%Z fresh)).
Proof.
  destruct (same_artifact_is_loaded_once (IL := images) (TS := atlas) (K := constants)
              loadsFive loadsSix
              (2, 3, 4)%Z (3, 3, 4)%Z fresh 5) as (_ & Hcalls & _);
    [compute_it | compute_it | compute_it | compute_it | compute_it | compute_it |].
  exact Hcalls.
Defined.

Lemma failed_load_is_remembered_until_cancel_witness :
  getTile (9 * second)%Z (9, 1, 3)%Z
    (loadLoopBody failsWith500
       (getTile (3 * second)%Z (9, 1, 3)%Z fresh).2)
  = (Thrown (runtime_error "Corrupt tile"),
     loadLoopBody failsWith500
       (getTile (3 * second)%Z (9, 1, 3)%Z fresh).2).
Proof.
  destruct (failed_load_is_remembered_until_cancel (IL := images)
              (3 * second)%Z (9 * second)%Z (10 * second)%Z
              failsWith500
              (9, 1, 3)%Z (1, 1, 3)%Z fresh "HTTP 500") as (_ & Hcorrupt & _);
    [compute_it | not_member | compute_it | compute_it | compute_it | compute_it
    | compute_it |].
  exact Hcorrupt.
Defined.

Lemma loaded_tile_is_served_and_survives_purge_witness :
  (getTile (8 * second)%Z (9, 1, 3)%Z
     (processCoords loadsFive (1, 1, 3)%Z fresh)).1
    = Returned (Some 5) ∧
  (getTile (9 * second)%Z (9, 1, 3)%Z
     (purge (processCoords loadsFive (1, 1, 3)%Z fresh))).1
    = Returned (Some 5).
Proof.
  destruct (loaded_tile_is_served_and_survives_purge (IL := images)
              (8 * second)%Z (9 * second)%Z loadsFive
              (9, 1, 3)%Z (1, 1, 3)%Z fresh 5 5) as (Hmem & _ & Hdisk & _);
    [compute_it | not_member | compute_it | compute_it | compute_it |].
  by split.
Defined.

Lemma flushCache_twice_witness :
  flushCache (40 * second)%Z (flushCache (10 * second)%Z busy)
  = flushCache (40 * second)%Z busy.
Proof.
  apply (flushCache_twice (IL := images) (10 * second)%Z (40 * second)%Z busy);
    compute_it.
Defined.

Lemma errored_coordinate_stays_errored_witness :
  getTile (50 * second)%Z (15, 0, 3)%Z (run busyDay busy)
  = (Thrown (runtime_error "Corrupt tile"), run busyDay busy).
Proof.
  destruct (errored_coordinate_stays_errored (IL := images) busyDay (50 * second)%Z
              (15, 0, 3)%Z (7, 0, 3)%Z busy) as [_ Hthrow].
  - reflexivity.
  - by apply elem_of_singleton.
  - repeat constructor.
  - exact Hthrow.
Defined.

Lemma cancelled_load_is_forgotten_witness :
  (getTile (9 * second)%Z (9, 1, 3)%Z
     (loadLoopBody isCancelled
        (getTile (3 * second)%Z (9, 1, 3)%Z fresh).2)).1 = Returned None.
Proof.
  destruct (cancelled_load_is_forgotten (IL := images) (3 * second)%Z (9 * second)%Z
              isCancelled
              (9, 1, 3)%Z (1, 1, 3)%Z fresh "cancelled")
    as (_ & _ & _ & Hmiss & _);
    [compute_it | not_member | compute_it | compute_it | compute_it | compute_it
    | compute_it |].
  exact Hmiss.
Defined.

Lemma fresh_is_keyed : keyedByCorrected fresh.
Proof.
  unfold keyedByCorrected. split_and!; simpl.
  - by intros c Hin%not_elem_of_empty.
  - by intros c Hin%not_elem_of_empty.
  - by intros c Hin%elem_of_nil.
  - intros path [e Hentry]. by rewrite lookup_empty in Hentry.
Defined.

Lemma cache_is_keyed_by_corrected_coordinates_witness :
  keyedByCorrected fresh ∧ keyedByCorrected (run busyDay fresh).
Proof.
  split; [exact fresh_is_keyed|].
  apply (cache_is_keyed_by_corrected_coordinates (IL := images) busyDay fresh
           fresh_is_keyed).
Defined.

(** Three tiles of page 3 after the first. *)
Lemma tiles_of_a_page_share_one_list_witness :
  Rasterizer.run
    [Rasterizer.OpLoadTile Rasterizer.FzOk (Returned ()) 3%Z;
     Rasterizer.OpLoadTile (Rasterizer.FzCaught "no") (Thrown (runtime_error "x")) 3%Z]
    (Rasterizer.loadTile Rasterizer.FzOk (Returned ()) 3%Z (Rasterizer.initial 8 0)).2
  = (Rasterizer.loadTile Rasterizer.FzOk (Returned ()) 3%Z (Rasterizer.initial 8 0)).2.
Proof.
  apply (tiles_of_a_page_share_one_list Rasterizer.FzOk (Returned ()) 3%Z).
  - repeat constructor.
  - reflexivity.
Defined.

Lemma loadDocument_caches_every_page_witness :
  length (pageRects (loadDocument threePages "chart.pdf" noDocument).2) = 3 ∧
  loadedPages (docCalls (loadDocument threePages "chart.pdf" noDocument).2) = ∅.
Proof.
  destruct (loadDocument_caches_every_page threePages "chart.pdf"
              (loadDocument threePages "chart.pdf" noDocument).2)
    as (_ & Hlen & _ & Hloaded & _); [reflexivity|].
  split; [exact Hlen | exact Hloaded].
Defined.

Lemma loadDocument_failure_releases_witness :
  loadedPages (docCalls (loadDocument brokenPage "chart.pdf" noDocument).2) = ∅.
Proof.
  destruct (loadDocument_failure_releases brokenPage "chart.pdf"
              (loadDocument brokenPage "chart.pdf" noDocument).2
              (runtime_error "Couldn't load page")) as [Hloaded _]; [reflexivity|].
  exact Hloaded.
Defined.

Lemma getPageSize_in_range_iff_witness :
  (∃ rect, boundPage threePages 2 = Some rect ∧
           getPageSize widthAtZoom0 2 0
             (loadDocument threePages "chart.pdf" noDocument).2
           = Returned (widthAtZoom0 rect 0)) ∧
  (∃ what, getPageSize widthAtZoom0 (-1) 0
             (loadDocument threePages "chart.pdf" noDocument).2
           = Thrown (out_of_range what)).
Proof.
  destruct (getPageSize_in_range_iff threePages "chart.pdf"
              (loadDocument threePages "chart.pdf" noDocument).2
              widthAtZoom0 2 0 eq_refl) as [Hin _].
  destruct (getPageSize_in_range_iff threePages "chart.pdf"
              (loadDocument threePages "chart.pdf" noDocument).2
              widthAtZoom0 (-1) 0 eq_refl) as [_ Hout].
  split; [apply Hin | apply Hout]; unfold getPageCount; simpl; lia.
Defined.

(** Pixel (1000, 600) with tiles of 512 pixels lies in tile (1, 1). *)
Lemma clip_boxes_tile_the_plane_witness :
  ∃ b, clipBox 512 (1000 / 512) (600 / 512) = Some b ∧ covers b 1000 600.
Proof.
  destruct (clip_boxes_tile_the_plane 512 1000 600) as [(b & Hbox & Hcov & _) _];
    [lia | lia | lia | lia | lia |].
  by exists b.
Defined.

End MoreInstances.

(** * The page-size getters *)

Section PageSizeFacts.
Import TileCache Document PageSize.

(** ** The spec's formula *)

(** [floor_times_sqrt2_pow num den zoom] is the whole number [F] with
    F ≤ (num/den)·√2^zoom < F + 1, the inequalities squared and cleared
    of the denominator. *)
Lemma floor_times_sqrt2_pow_spec num den zoom :
  (0 ≤ num)%Z → (0 < den)%Z → (0 ≤ zoom)%Z →
  (0 ≤ floor_times_sqrt2_pow num den zoom)%Z ∧
  ((floor_times_sqrt2_pow num den zoom * den) ^ 2 ≤ num ^ 2 * 2 ^ zoom
   < ((floor_times_sqrt2_pow num den zoom + 1) * den) ^ 2)%Z.
Proof.
  intros Hnum Hden Hzoom. unfold floor_times_sqrt2_pow.
  assert (0 < 2 ^ zoom)%Z by (apply Z.pow_pos_nonneg; lia).
  rewrite !Z.pow_2_r.
  pose proof (Z.sqrt_spec (num * num * 2 ^ zoom) ltac:(nia)) as Hsqrt.
  pose proof (Z.sqrt_nonneg (num * num * 2 ^ zoom)) as Hnonneg.
  cbn zeta in Hsqrt.
  set (S := Z.sqrt (num * num * 2 ^ zoom)) in *.
  pose proof (Z.mul_div_le S den Hden) as Hfloor.
  pose proof (Z.mul_succ_div_gt S den Hden) as Hceil.
  assert (HF : (0 ≤ S / den)%Z) by (apply Z.div_pos; lia).
  set (F := (S / den)%Z) in *. clearbody F S.
  split; [done|]. split.
  - assert (F * den * (F * den) ≤ S * S)%Z by (apply Z.mul_le_mono_nonneg; nia).
    lia.
  - assert (Z.succ S * Z.succ S ≤ (F + 1) * den * ((F + 1) * den))%Z
      by (apply Z.mul_le_mono_nonneg; nia).
    lia.
Qed.

(** At an even zoom √2^zoom is a whole power of two. *)
Lemma floor_times_sqrt2_pow_even n k :
  (0 ≤ n)%Z → (0 ≤ k)%Z → floor_times_sqrt2_pow n 1 (2 * k) = (n * 2 ^ k)%Z.
Proof.
  intros Hn Hk. unfold floor_times_sqrt2_pow. rewrite Z.div_1_r.
  replace (2 * k)%Z with (k + k)%Z by lia. rewrite Z.pow_add_r by lia.
  replace (n * n * (2 ^ k * 2 ^ k))%Z with ((n * 2 ^ k) * (n * 2 ^ k))%Z by lia.
  apply Z.sqrt_square. apply Z.mul_nonneg_nonneg; [done|]. apply Z.pow_nonneg. lia.
Qed.

(** ** Rounding in binary32 *)

(** The number of binary digits of a mantissa. *)
Lemma digits2_pos_bounds p :
  (2 ^ (Z.pos (digits2_pos p) - 1) ≤ Z.pos p < 2 ^ Z.pos (digits2_pos p))%Z.
Proof.
  assert (Hstep : ∀ d : positive,
    (2 ^ (Z.pos (Pos.succ d) - 1) = 2 * 2 ^ (Z.pos d - 1))%Z ∧
    (2 ^ Z.pos (Pos.succ d) = 2 * 2 ^ Z.pos d)%Z).
  { intros d. rewrite Pos2Z.inj_succ. split.
    - replace (Z.succ (Z.pos d) - 1)%Z with (Z.succ (Z.pos d - 1)) by lia.
      apply Z.pow_succ_r. lia.
    - apply Z.pow_succ_r. lia. }
  induction p as [p IH|p IH|]; simpl digits2_pos.
  - destruct (Hstep (digits2_pos p)) as [-> ->]. lia.
  - destruct (Hstep (digits2_pos p)) as [-> ->]. lia.
  - simpl. lia.
Qed.

Lemma digits2_pos_iter_xO p j :
  digits2_pos (Pos.iter xO p j) = (digits2_pos p + j)%positive.
Proof.
  induction j as [|j IH] using Pos.peano_ind.
  - simpl. lia.
  - rewrite Pos.iter_succ. simpl. rewrite IH. lia.
Qed.

Lemma iter_xO_value p j : Z.pos (Pos.iter xO p j) = (Z.pos p * 2 ^ Z.pos j)%Z.
Proof.
  induction j as [|j IH] using Pos.peano_ind.
  - simpl. lia.
  - rewrite Pos.iter_succ, Pos2Z.inj_xO, IH, Pos2Z.inj_succ, Z.pow_succ_r by lia. lia.
Qed.

(** A mantissa of 24 digits at an exponent in range is kept as it is. *)
Lemma binary_round_aux_canonical s m e :
  Z.pos (digits2_pos m) = 24%Z → (-149 ≤ e ≤ 104)%Z →
  binary_round_aux float_prec float_emax s (Z.pos m) e loc_Exact = S754_finite s m e.
Proof.
  intros Hd He. unfold binary_round_aux, shr_fexp. simpl Zdigits2. rewrite Hd.
  assert (Hf : (fexp float_prec float_emax (24 + e) - e = 0)%Z)
    by (unfold fexp, emin, float_prec, float_emax; lia).
  rewrite Hf. simpl. rewrite Hd, Hf. simpl.
  assert (Hle : (e <=? float_emax - float_prec)%Z = true)
    by (apply Z.leb_le; unfold float_emax, float_prec; lia).
  unfold float_emax, float_prec in *. by rewrite Hle.
Qed.

(** A positive [int] below 2^24 converts to [float] without rounding. *)
Lemma int_to_float_exact (p : positive) :
  (Z.pos p < 2 ^ 24)%Z →
  ∃ m e, int_to_float (Z.pos p) = S754_finite false m e ∧
         Z.pos (digits2_pos m) = 24%Z ∧ (-23 ≤ e ≤ 0)%Z ∧
         Z.pos m = (Z.pos p * 2 ^ (- e))%Z.
Proof.
  intros Hp.
  pose proof (digits2_pos_bounds p) as [Hlo Hhi].
  assert (Hd : (Z.pos (digits2_pos p) ≤ 24)%Z).
  { destruct (Z.le_gt_cases (Z.pos (digits2_pos p)) 24) as [|Hgt]; [done|].
    assert (2 ^ 24 ≤ 2 ^ (Z.pos (digits2_pos p) - 1))%Z
      by (apply Z.pow_le_mono_r; lia).
    lia. }
  unfold int_to_float, binary_normalize, binary_round, shl_align.
  assert (Hf : fexp float_prec float_emax (Z.pos (digits2_pos p) + 0)
               = (Z.pos (digits2_pos p) - 24)%Z)
    by (unfold fexp, emin, float_prec, float_emax; lia).
  rewrite Hf.
  destruct (Z.pos (digits2_pos p) - 24 - 0)%Z as [|q|q] eqn:Hshift; [|lia|].
  - exists p, 0%Z. split; [|split; [|split]]; [|lia|lia|simpl; lia].
    apply binary_round_aux_canonical; lia.
  - exists (Pos.iter xO p q), (Z.pos (digits2_pos p) - 24)%Z.
    assert (Hdq : Z.pos (digits2_pos (Pos.iter xO p q)) = 24%Z)
      by (rewrite digits2_pos_iter_xO; lia).
    split; [|split; [|split]]; [|done|lia|].
    + apply binary_round_aux_canonical; [done|lia].
    + rewrite iter_xO_value. f_equal. f_equal. lia.
Qed.

(** Multiplying a normal [float] by a power of two moves its exponent. *)
Lemma float_mul_pow2 m e k :
  Z.pos (digits2_pos m) = 24%Z → (-149 ≤ e + k ≤ 104)%Z →
  float_mul (S754_finite false m e) (pow2_float k) = S754_finite false m (e + k).
Proof.
  intros Hd He. unfold float_mul, pow2_float, SFmul. simpl xorb.
  assert (Hmul : (m * 8388608)%positive = Pos.iter xO m 23).
  { apply Pos2Z.inj. rewrite iter_xO_value, Pos2Z.inj_mul. reflexivity. }
  rewrite Hmul. unfold binary_round_aux, shr_fexp.
  unfold Zdigits2 at 1. rewrite digits2_pos_iter_xO, Pos2Z.inj_add, Hd.
  assert (Hf : (fexp float_prec float_emax (24 + 23 + (e + (k - 23))) - (e + (k - 23)) = 23)%Z)
    by (unfold fexp, emin, float_prec, float_emax; lia).
  rewrite Hf. simpl. rewrite Hd.
  assert (Hf2 : (fexp float_prec float_emax (24 + (e + (k - 23) + 23))
                 - (e + (k - 23) + 23) = 0)%Z)
    by (unfold fexp, emin, float_prec, float_emax; lia).
  rewrite Hf2. simpl.
  assert (Hle : (e + (k - 23) + 23 <=? float_emax - float_prec)%Z = true)
    by (apply Z.leb_le; unfold float_emax, float_prec; lia).
  unfold float_emax, float_prec in *. rewrite Hle. f_equal. lia.
Qed.

(** *** Doubling the scale *)

Lemma shr_succ_exp mrs e n :
  shr mrs (e + 1) n = ((shr mrs e n).1, ((shr mrs e n).2 + 1)%Z).
Proof. unfold shr. destruct n; simpl; f_equal; lia. Qed.

Lemma shr_nonpos mrs e n : (n ≤ 0)%Z → shr mrs e n = (mrs, e).
Proof. unfold shr. destruct n; [done|lia|done]. Qed.

Lemma shr_exp mrs e n : (shr mrs e n).2 = (e + Z.max n 0)%Z.
Proof. unfold shr. destruct n; simpl; lia. Qed.

(** Rounding the same mantissa one exponent higher gives twice the
    result, as long as the result is not subnormal. *)
Lemma binary_round_aux_twice s m e l :
  (-149 ≤ Zdigits2 m + e - 24)%Z →
  binary_round_aux float_prec float_emax s m (e + 1) l
  = twice (binary_round_aux float_prec float_emax s m e l).
Proof.
  intros Hnormal. unfold binary_round_aux, shr_fexp.
  assert (Hn : (fexp float_prec float_emax (Zdigits2 m + (e + 1)) - (e + 1)
               = fexp float_prec float_emax (Zdigits2 m + e) - e)%Z)
    by (unfold fexp, emin, float_prec, float_emax; lia).
  rewrite Hn, shr_succ_exp.
  pose proof (shr_exp (shr_record_of_loc m l) e
                (fexp float_prec float_emax (Zdigits2 m + e) - e)) as He'.
  destruct (shr (shr_record_of_loc m l) e
              (fexp float_prec float_emax (Zdigits2 m + e) - e)) as [mrs' e'].
  simpl in He'. simpl fst. simpl snd.
  assert (Hmin : (-149 ≤ e')%Z)
    by (unfold fexp, emin, float_prec, float_emax in He'; lia).
  set (m2 := round_nearest_even (shr_m mrs') (loc_of_shr_record mrs')).
  assert (Hstage2 :
    shr (shr_record_of_loc m2 loc_Exact) (e' + 1)
        (fexp float_prec float_emax (Zdigits2 m2 + (e' + 1)) - (e' + 1))
    = ((shr (shr_record_of_loc m2 loc_Exact) e'
            (fexp float_prec float_emax (Zdigits2 m2 + e') - e')).1,
       ((shr (shr_record_of_loc m2 loc_Exact) e'
            (fexp float_prec float_emax (Zdigits2 m2 + e') - e')).2 + 1)%Z)).
  { destruct (Z.le_gt_cases (Zdigits2 m2) 24) as [Hsmall|Hbig].
    - rewrite !shr_nonpos;
        [done | unfold fexp, emin, float_prec, float_emax; lia
        | unfold fexp, emin, float_prec, float_emax; lia].
    - assert (Hn2 : (fexp float_prec float_emax (Zdigits2 m2 + (e' + 1)) - (e' + 1)
                    = fexp float_prec float_emax (Zdigits2 m2 + e') - e')%Z)
        by (unfold fexp, emin, float_prec, float_emax; lia).
      by rewrite Hn2, shr_succ_exp. }
  rewrite Hstage2.
  destruct (shr (shr_record_of_loc m2 loc_Exact) e'
              (fexp float_prec float_emax (Zdigits2 m2 + e') - e')) as [mrs'' e''].
  simpl fst. simpl snd.
  destruct (shr_m mrs'') as [|m''|m'']; [done| |done].
  unfold twice.
  destruct (Z.leb_spec e'' (float_emax - float_prec)) as [Hle|Hgt].
  - done.
  - rewrite (proj2 (Z.leb_gt _ _)); [done|lia].
Qed.

(** Rounding never lowers the exponent. *)
Lemma binary_round_aux_exp s m e l s' m' e' :
  binary_round_aux float_prec float_emax s m e l = S754_finite s' m' e' →
  (e ≤ e')%Z.
Proof.
  unfold binary_round_aux, shr_fexp.
  pose proof (shr_exp (shr_record_of_loc m l) e
                (fexp float_prec float_emax (Zdigits2 m + e) - e)) as He1.
  destruct (shr (shr_record_of_loc m l) e _) as [mrs1 e1]. simpl in He1.
  set (m2 := round_nearest_even (shr_m mrs1) (loc_of_shr_record mrs1)).
  pose proof (shr_exp (shr_record_of_loc m2 loc_Exact) e1
                (fexp float_prec float_emax (Zdigits2 m2 + e1) - e1)) as He2.
  destruct (shr (shr_record_of_loc m2 loc_Exact) e1 _) as [mrs2 e2]. simpl in He2.
  destruct (shr_m mrs2); [done| |done].
  destruct (e2 <=? float_emax - float_prec)%Z; [|done].
  intros [= _ _ <-]. lia.
Qed.

(** The exponent of an [int] converted to [float]. *)
Lemma int_to_float_exp n s m e :
  int_to_float n = S754_finite s m e → (-23 ≤ e)%Z.
Proof.
  unfold int_to_float, binary_normalize, binary_round, shl_align.
  destruct n as [|p|p]; [done| |].
  - destruct (fexp float_prec float_emax (Z.pos (digits2_pos p) + 0) - 0)%Z eqn:Hshift;
      intros Hx%binary_round_aux_exp;
      unfold fexp, emin, float_prec, float_emax in *; lia.
  - destruct (fexp float_prec float_emax (Z.pos (digits2_pos p) + 0) - 0)%Z eqn:Hshift;
      intros Hx%binary_round_aux_exp;
      unfold fexp, emin, float_prec, float_emax in *; lia.
Qed.

(** Multiplying by twice the scale gives twice the product. *)
Lemma float_mul_twice x ms es :
  (∀ s m e, x = S754_finite s m e → (-23 ≤ e)%Z) →
  (-103 ≤ es)%Z →
  float_mul x (S754_finite false ms (es + 1))
  = twice (float_mul x (S754_finite false ms es)).
Proof.
  intros Hx Hes. destruct x as [s|s| |s m e]; try done.
  specialize (Hx s m e eq_refl).
  unfold float_mul, SFmul. rewrite Z.add_assoc.
  apply binary_round_aux_twice. simpl Zdigits2. lia.
Qed.

(** Truncating twice a [float]. *)
Lemma float_to_int_twice f W :
  float_to_int f = Some W →
  (- 2 ^ 30 < W < 2 ^ 30)%Z →
  ∃ W', float_to_int (twice f) = Some W' ∧ (-1 ≤ W' - 2 * W ≤ 1)%Z.
Proof.
  destruct f as [s|s| |s m e]; simpl; try done.
  - intros [= <-] _. exists 0%Z. split; [done|lia].
  - set (M := (if (0 <=? e)%Z then Z.pos m * 2 ^ e else Z.pos m / 2 ^ (- e))%Z).
    destruct (bool_decide (int_range (if s then (- M)%Z else M))) eqn:Hin; [|done].
    intros [= <-] HW.
    assert (HM : (0 ≤ M < 2 ^ 30)%Z).
    { assert (0 ≤ M)%Z.
      { subst M. destruct (Z.leb_spec 0 e).
        - apply Z.mul_nonneg_nonneg; [lia|]. apply Z.pow_nonneg. lia.
        - apply Z.div_pos; [lia|]. apply Z.pow_pos_nonneg; lia. }
      destruct s; lia. }
    assert (He : (e < 30)%Z).
    { destruct (Z.lt_ge_cases e 30) as [|Hge]; [done|].
      assert (2 ^ 30 ≤ 2 ^ e)%Z by (apply Z.pow_le_mono_r; lia).
      subst M. rewrite (proj2 (Z.leb_le 0 e)) in HM by lia. nia. }
    rewrite (proj2 (Z.leb_le (e + 1) (float_emax - float_prec)))
      by (unfold float_emax, float_prec; lia).
    simpl.
    set (M' := (if (0 <=? e + 1)%Z then Z.pos m * 2 ^ (e + 1)
                else Z.pos m / 2 ^ (- (e + 1)))%Z).
    assert (HM' : (M' = 2 * M ∨ M' = 2 * M + 1)%Z).
    { subst M M'. destruct (Z.leb_spec 0 e) as [Hpos|Hneg].
      - rewrite (proj2 (Z.leb_le 0 (e + 1))) by lia.
        rewrite Z.pow_add_r by lia. left. lia.
      - destruct (Z.leb_spec 0 (e + 1)) as [Hzero|Hneg'].
        + assert (e = -1)%Z as -> by lia.
          change (- -1)%Z with 1%Z. change (-1 + 1)%Z with 0%Z.
          rewrite Z.pow_0_r, Z.pow_1_r. clear.
          pose proof (Z.div_mod (Z.pos m) 2) as Hdm.
          pose proof (Z.mod_pos_bound (Z.pos m) 2). lia.
        + assert (Hpow : (2 ^ (- e) = 2 ^ (- (e + 1)) * 2)%Z).
          { replace (- e)%Z with (- (e + 1) + 1)%Z by lia.
            rewrite Z.pow_add_r by lia. done. }
          rewrite Hpow.
          assert (0 < 2 ^ (- (e + 1)))%Z by (apply Z.pow_pos_nonneg; lia).
          rewrite <- Z.div_div by lia.
          generalize (Z.pos m / 2 ^ (- (e + 1)))%Z. clear. intros q.
          pose proof (Z.div_mod q 2) as Hdm.
          pose proof (Z.mod_pos_bound q 2). lia. }
    exists (if s then (- M')%Z else M').
    rewrite bool_decide_eq_true_2 by (unfold int_range; destruct s; lia).
    split; [done|]. destruct s; lia.
Qed.

(** *** Rounding brackets the exact product *)

(** Shifting a mantissa right halves it, rounding down. *)
Lemma shr_1_m mrs : (0 ≤ shr_m mrs)%Z → shr_m (shr_1 mrs) = (shr_m mrs / 2)%Z.
Proof.
  destruct mrs as [m r s]. intros Hm. cbn [shr_m] in Hm.
  destruct m as [|[p|p|]|p]; cbn [shr_1 shr_m]; [done| | |done|lia].
  - apply (Z.div_unique _ _ _ 1); lia.
  - apply (Z.div_unique _ _ _ 0); lia.
Qed.

Lemma iter_pos_shr_1_m p : ∀ mrs, (0 ≤ shr_m mrs)%Z →
  (0 ≤ shr_m (iter_pos shr_1 p mrs))%Z ∧
  shr_m (iter_pos shr_1 p mrs) = (shr_m mrs / 2 ^ Z.pos p)%Z.
Proof.
  assert (Hpow : ∀ q : positive, (0 < 2 ^ Z.pos q)%Z)
    by (intros q; apply Z.pow_pos_nonneg; lia).
  assert (Hdone : ∀ a q, (0 ≤ a)%Z → (0 ≤ a / 2 ^ Z.pos q)%Z)
    by (intros a q Ha; apply Z.div_pos; [done|apply Hpow]).
  induction p as [p IH|p IH|]; intros mrs Hm; cbn [iter_pos].
  - assert (H1 : (0 ≤ shr_m (shr_1 mrs))%Z)
      by (rewrite shr_1_m by done; apply Z.div_pos; lia).
    destruct (IH _ H1) as [H2 E2]. destruct (IH _ H2) as [H3 E3].
    split; [done|]. rewrite E3, E2, shr_1_m by done.
    rewrite !Z.div_div by (pose proof (Hpow p); lia).
    f_equal. rewrite (Pos2Z.inj_xI p).
    replace (2 * Z.pos p + 1)%Z with (Z.pos p + Z.pos p + 1)%Z by lia.
    rewrite !Z.pow_add_r by lia. change (2 ^ 1)%Z with 2%Z. lia.
  - destruct (IH _ Hm) as [H2 E2]. destruct (IH _ H2) as [H3 E3].
    split; [done|]. rewrite E3, E2.
    rewrite !Z.div_div by (pose proof (Hpow p); lia).
    f_equal. rewrite (Pos2Z.inj_xO p).
    replace (2 * Z.pos p)%Z with (Z.pos p + Z.pos p)%Z by lia.
    rewrite Z.pow_add_r by lia. lia.
  - rewrite shr_1_m by done. change (2 ^ 1)%Z with 2%Z.
    split; [apply Z.div_pos; lia|done].
Qed.

Lemma shr_m_value mrs e n : (0 ≤ shr_m mrs)%Z →
  shr_m (shr mrs e n).1 = (shr_m mrs / 2 ^ Z.max n 0)%Z.
Proof.
  intros Hm. destruct n as [|p|p]; cbn [shr fst].
  - by rewrite Z.div_1_r.
  - by destruct (iter_pos_shr_1_m p mrs Hm) as [_ ->].
  - by rewrite Z.div_1_r.
Qed.

Lemma shr_m_of_loc m l : shr_m (shr_record_of_loc m l) = m.
Proof. by destruct l as [|[]]. Qed.

Lemma round_nearest_even_bounds m l :
  (m ≤ round_nearest_even m l ≤ m + 1)%Z.
Proof.
  unfold round_nearest_even. destruct l as [|[]]; try lia.
  destruct (Z.even m); lia.
Qed.

(** The product of a 24-bit rounding: the mantissa kept is the floor of
    the exact one at the new exponent, or that plus one. *)
Lemma binary_round_aux_bracket s pm e :
  let k := Z.max (Zdigits2 (Z.pos pm) - 24) 0 in
  (-149 ≤ Zdigits2 (Z.pos pm) + e - 24)%Z →
  (e + k + 1 ≤ 104)%Z →
  ∃ mr er,
    binary_round_aux float_prec float_emax s (Z.pos pm) e loc_Exact
    = S754_finite s mr er ∧
    (e + k ≤ er)%Z ∧
    ((Z.pos mr * 2 ^ (er - (e + k)) - 1) * 2 ^ k ≤ Z.pos pm
      < (Z.pos mr * 2 ^ (er - (e + k)) + 1) * 2 ^ k)%Z.
Proof.
  intros k Hnormal Hfinite.
  pose proof (digits2_pos_bounds pm) as Hd.
  cbn [Zdigits2] in *. set (d := Z.pos (digits2_pos pm)) in *.
  assert (Hdpos : (1 ≤ d)%Z) by (subst d; lia).
  assert (HK : (0 < 2 ^ k)%Z) by (apply Z.pow_pos_nonneg; lia).
  unfold binary_round_aux, shr_fexp. cbn [Zdigits2]. fold d.
  assert (Hn1 : Z.max (fexp float_prec float_emax (d + e) - e) 0 = k)
    by (unfold fexp, emin, float_prec, float_emax; lia).
  pose proof (shr_exp (shr_record_of_loc (Z.pos pm) loc_Exact) e
                (fexp float_prec float_emax (d + e) - e)) as He'.
  pose proof (shr_m_value (shr_record_of_loc (Z.pos pm) loc_Exact) e
                (fexp float_prec float_emax (d + e) - e)) as Hm'.
  rewrite Hn1 in He', Hm'. rewrite shr_m_of_loc in Hm'.
  specialize (Hm' ltac:(lia)).
  destruct (shr (shr_record_of_loc (Z.pos pm) loc_Exact) e
              (fexp float_prec float_emax (d + e) - e)) as [mrs' e'].
  cbn [fst snd] in He', Hm'. subst e'.
  pose proof (round_nearest_even_bounds (shr_m mrs') (loc_of_shr_record mrs')) as Hm2.
  set (m2 := round_nearest_even (shr_m mrs') (loc_of_shr_record mrs')) in *.
  rewrite Hm' in Hm2. clear Hm'.
  (* the floor of the exact mantissa *)
  pose proof (Z.mul_div_le (Z.pos pm) (2 ^ k) HK) as Hfloor.
  pose proof (Z.mul_succ_div_gt (Z.pos pm) (2 ^ k) HK) as Hceil.
  set (m' := (Z.pos pm / 2 ^ k)%Z) in *.
  assert (Hm'lo : (1 ≤ m')%Z).
  { apply Z.div_le_lower_bound; [done|]. rewrite Z.mul_1_r.
    transitivity (2 ^ (d - 1))%Z; [|lia].
    apply Z.pow_le_mono_r; lia. }
  assert (Hm'hi : (m' < 2 ^ 24)%Z).
  { apply Z.div_lt_upper_bound; [done|].
    rewrite <- Z.pow_add_r by lia.
    eapply Z.lt_le_trans; [apply Hd|]. apply Z.pow_le_mono_r; lia. }
  assert (Hbracket : ((m2 - 1) * 2 ^ k ≤ Z.pos pm < (m2 + 1) * 2 ^ k)%Z) by nia.
  destruct m2 as [|p2|p2] eqn:Ep2; [lia| |lia].
  destruct (Z.lt_ge_cases (Z.pos p2) (2 ^ 24)) as [Hsmall|Hbig].
  - (* no second shift *)
    pose proof (digits2_pos_bounds p2) as Hd2.
    assert (Hd2' : (Z.pos (digits2_pos p2) ≤ 24)%Z).
    { destruct (Z.le_gt_cases (Z.pos (digits2_pos p2)) 24) as [|Hgt]; [done|].
      assert (2 ^ 24 ≤ 2 ^ (Z.pos (digits2_pos p2) - 1))%Z
        by (apply Z.pow_le_mono_r; lia).
      lia. }
    cbn [Zdigits2]. rewrite shr_nonpos
      by (unfold fexp, emin, float_prec, float_emax; lia).
    cbn [shr_record_of_loc shr_m].
    rewrite (proj2 (Z.leb_le _ _)) by (unfold float_prec, float_emax; lia).
    exists p2, (e + k)%Z. split; [done|]. split; [lia|].
    rewrite Z.sub_diag, Z.pow_0_r, Z.mul_1_r. done.
  - (* the mantissa rounded up to 2^24 *)
    assert (p2 = 16777216%positive) as -> by lia.
    change (Zdigits2 (Z.pos 16777216)) with 25%Z.
    assert (Hn2 : (fexp float_prec float_emax (25 + (e + k)) - (e + k) = 1)%Z)
      by (unfold fexp, emin, float_prec, float_emax; lia).
    rewrite Hn2. cbn [shr shr_record_of_loc iter_pos shr_1 shr_m].
    rewrite (proj2 (Z.leb_le _ _)) by (unfold float_prec, float_emax; lia).
    exists 8388608%positive, (e + k + 1)%Z. split; [done|]. split; [lia|].
    replace (e + k + 1 - (e + k))%Z with 1%Z by lia.
    change (Z.pos 8388608 * 2 ^ 1)%Z with (Z.pos 16777216). done.
Qed.

(** Converting a positive [float] below one unit of granularity 2^E. *)
Lemma float_to_int_floor mr er E :
  (E ≤ er)%Z → (E ≤ 0)%Z →
  int_range (Z.pos mr * 2 ^ (er - E) / 2 ^ (- E)) →
  float_to_int (S754_finite false mr er)
  = Some (Z.pos mr * 2 ^ (er - E) / 2 ^ (- E))%Z.
Proof.
  intros Her HE Hrange. unfold float_to_int.
  assert (Hvalue : ((if (0 <=? er)%Z then Z.pos mr * 2 ^ er
                     else Z.pos mr / 2 ^ (- er))
                    = Z.pos mr * 2 ^ (er - E) / 2 ^ (- E))%Z).
  { destruct (Z.leb_spec 0 er) as [Hpos|Hneg].
    - replace (er - E)%Z with (er + - E)%Z by lia.
      rewrite Z.pow_add_r, Z.mul_assoc by lia.
      rewrite Z.div_mul; [done|]. apply Z.pow_nonzero; lia.
    - assert (2 ^ (- E) = 2 ^ (- er) * 2 ^ (er - E))%Z as ->
        by (rewrite <- Z.pow_add_r by lia; f_equal; lia).
      rewrite Z.div_mul_cancel_r; [done| |]; apply Z.pow_nonzero; lia. }
  rewrite Hvalue. by rewrite bool_decide_eq_true_2.
Qed.

(** The arithmetic behind the bracket: [A], [B], [K], [G] and [Q] stand
    for powers of two. *)
Lemma size_bracket_arith n ms A B K G Q Zz m2 W F :
  (0 < n)%Z → (0 < ms)%Z → (0 < B)%Z → (0 < K)%Z → (0 < G)%Z → (0 < Q)%Z →
  (0 < Zz)%Z → A = (4 * Q)%Z → (G * K = A * B)%Z → (n ≤ Q)%Z → (K ≤ Q * B)%Z →
  ((ms - 1) * (ms - 1) ≤ Zz * (A * A) ≤ (ms + 1) * (ms + 1))%Z →
  ((m2 - 1) * K ≤ n * B * ms < (m2 + 1) * K)%Z →
  (W * G ≤ m2 < (W + 1) * G)%Z →
  (0 ≤ F)%Z → (F * F ≤ n * n * Zz < (F + 1) * (F + 1))%Z →
  (0 ≤ W ∧ F - 1 ≤ W ≤ F + 1)%Z.
Proof.
  intros Hn Hms HB HK HG HQ HZz -> HGK HnQ HKQ Hscale Hm2 HW HF HFF.
  assert (HWnn : (0 ≤ W)%Z) by nia.
  (* n·ms < (W+1)·A *)
  assert (Hup : (n * ms < (W + 1) * (4 * Q))%Z).
  { assert (n * B * ms < (W + 1) * (G * K))%Z by nia.
    rewrite HGK in *. nia. }
  (* W·A - Q ≤ n·ms *)
  assert (Hlow : (W * (4 * Q) - Q ≤ n * ms)%Z).
  { assert ((W * G - 1) * K ≤ n * B * ms)%Z by nia.
    assert (W * (G * K) - K ≤ n * B * ms)%Z by nia.
    rewrite HGK in *. nia. }
  split; [done|]. split.
  - (* F < W + 2 *)
    assert (Hsq : (n * n * Zz < (W + 2) * (W + 2))%Z).
    { assert (H1 : (n * (ms + 1) < (W + 2) * (4 * Q))%Z) by nia.
      assert (H2 : ((n * (ms + 1)) * (n * (ms + 1))
                    < ((W + 2) * (4 * Q)) * ((W + 2) * (4 * Q)))%Z)
        by (apply Z.mul_lt_mono_nonneg; nia).
      assert (H3 : (n * n * (Zz * (4 * Q * (4 * Q)))
                    ≤ (n * (ms + 1)) * (n * (ms + 1)))%Z).
      { replace ((n * (ms + 1)) * (n * (ms + 1)))%Z
          with (n * n * ((ms + 1) * (ms + 1)))%Z by ring.
        apply Z.mul_le_mono_nonneg_l; [apply Z.square_nonneg|apply Hscale]. }
      assert (H4 : ((n * n * Zz) * (4 * Q * (4 * Q))
                    < ((W + 2) * (W + 2)) * (4 * Q * (4 * Q)))%Z).
      { replace ((n * n * Zz) * (4 * Q * (4 * Q)))%Z
          with (n * n * (Zz * (4 * Q * (4 * Q))))%Z by ring.
        replace (((W + 2) * (W + 2)) * (4 * Q * (4 * Q)))%Z
          with (((W + 2) * (4 * Q)) * ((W + 2) * (4 * Q)))%Z by ring.
        lia. }
      apply Z.mul_lt_mono_pos_r in H4; [done|nia]. }
    destruct (Z.le_gt_cases (F - 1) W) as [|Hgt]; [done|].
    assert ((W + 2) * (W + 2) ≤ F * F)%Z by (apply Z.mul_le_mono_nonneg; lia).
    lia.
  - (* W - 1 ≤ F *)
    destruct (Z.le_gt_cases W 1) as [|Hbig]; [lia|].
    assert (Hsq : ((W - 1) * (W - 1) ≤ n * n * Zz)%Z).
    { assert (H1 : ((W - 1) * (4 * Q) ≤ n * (ms - 1))%Z) by nia.
      assert (H2 : (((W - 1) * (4 * Q)) * ((W - 1) * (4 * Q))
                    ≤ (n * (ms - 1)) * (n * (ms - 1)))%Z)
        by (apply Z.mul_le_mono_nonneg; nia).
      assert (H3 : ((n * (ms - 1)) * (n * (ms - 1))
                    ≤ n * n * (Zz * (4 * Q * (4 * Q))))%Z).
      { replace ((n * (ms - 1)) * (n * (ms - 1)))%Z
          with (n * n * ((ms - 1) * (ms - 1)))%Z by ring.
        apply Z.mul_le_mono_nonneg_l; [apply Z.square_nonneg|apply Hscale]. }
      assert (H4 : (((W - 1) * (W - 1)) * (4 * Q * (4 * Q))
                    ≤ (n * n * Zz) * (4 * Q * (4 * Q)))%Z).
      { replace ((n * n * Zz) * (4 * Q * (4 * Q)))%Z
          with (n * n * (Zz * (4 * Q * (4 * Q))))%Z by ring.
        replace (((W - 1) * (W - 1)) * (4 * Q * (4 * Q)))%Z
          with (((W - 1) * (4 * Q)) * ((W - 1) * (4 * Q)))%Z by ring.
        lia. }
      apply Z.mul_le_mono_pos_r in H4; [done|nia]. }
    destruct (Z.le_gt_cases W (F + 1)) as [|Hgt]; [done|].
    assert ((F + 1) * (F + 1) ≤ (W - 1) * (W - 1))%Z
      by (apply Z.mul_le_mono_nonneg; lia).
    lia.
Qed.

(** The product of a positive [int] and a scale within one unit in the
    last place of √2^zoom, converted back to [int]. *)
Lemma float_mul_bracket p ms es zoom :
  (0 ≤ zoom)%Z →
  within_one_ulp (S754_finite false ms es) zoom = true →
  (Z.pos p * Z.pos p * 2 ^ zoom < 2 ^ 42)%Z →
  ∃ W, float_to_int (float_mul (int_to_float (Z.pos p)) (S754_finite false ms es))
       = Some W ∧
       (Z.sqrt (Z.pos p * Z.pos p * 2 ^ zoom) - 1 ≤ W
        ≤ Z.sqrt (Z.pos p * Z.pos p * 2 ^ zoom) + 1)%Z.
Proof.
  intros Hzoom Hulp Hsize. cbn [within_one_ulp] in Hulp.
  apply andb_true_iff in Hulp as [Hulp Hsq%bool_decide_eq_true].
  apply andb_true_iff in Hulp as [Hds%bool_decide_eq_true Hes%bool_decide_eq_true].
  set (n := Z.pos p) in *.
  assert (HZz : (0 < 2 ^ zoom)%Z) by (apply Z.pow_pos_nonneg; lia).
  (* the sizes of the operands *)
  assert (Hn21 : (n < 2 ^ 21)%Z) by (subst n; nia).
  assert (Hzoom42 : (zoom < 42)%Z).
  { destruct (Z.lt_ge_cases zoom 42) as [|Hge]; [done|].
    assert (2 ^ 42 ≤ 2 ^ zoom)%Z by (apply Z.pow_le_mono_r; lia).
    subst n. nia. }
  pose proof (digits2_pos_bounds ms) as Hms. rewrite Hds in Hms.
  change (2 ^ (24 - 1))%Z with 8388608%Z in Hms.
  change (2 ^ 24)%Z with 16777216%Z in Hms.
  assert (HT : (46 ≤ zoom - 2 * es ≤ 48)%Z).
  { split.
    - destruct (Z.le_gt_cases 46 (zoom - 2 * es)) as [|Hlt]; [done|].
      assert (2 ^ (zoom - 2 * es) ≤ 2 ^ 45)%Z by (apply Z.pow_le_mono_r; lia).
      change (2 ^ 45)%Z with 35184372088832%Z in *. nia.
    - destruct (Z.le_gt_cases (zoom - 2 * es) 48) as [|Hgt]; [done|].
      assert (2 ^ 49 ≤ 2 ^ (zoom - 2 * es))%Z by (apply Z.pow_le_mono_r; lia).
      change (2 ^ 49)%Z with 562949953421312%Z in *. nia. }
  set (a := (- es)%Z).
  assert (Ha : (3 ≤ a)%Z) by lia.
  set (Q := (2 ^ (a - 2))%Z).
  assert (HQ : (0 < Q)%Z) by (apply Z.pow_pos_nonneg; lia).
  assert (HA : (2 ^ a = 4 * Q)%Z).
  { subst Q. replace a with (2 + (a - 2))%Z at 1 by lia.
    rewrite Z.pow_add_r by lia. done. }
  assert (HTpow : (2 ^ (zoom - 2 * es) = 2 ^ zoom * (2 ^ a * 2 ^ a))%Z).
  { rewrite <- !Z.pow_add_r by lia. f_equal. lia. }
  assert (HnQ : (n < Q)%Z).
  { assert (2 ^ 46 ≤ 2 ^ (zoom - 2 * es))%Z by (apply Z.pow_le_mono_r; lia).
    change (2 ^ 46)%Z with 70368744177664%Z in *.
    change (2 ^ 42)%Z with 4398046511104%Z in *.
    rewrite HTpow, HA in *. nia. }
  (* the int as a float *)
  destruct (int_to_float_exact p) as (mx & ex & Ex & Hdx & Hex & Hmx);
    [subst n; change (2 ^ 24)%Z with 16777216%Z;
     change (2 ^ 21)%Z with 2097152%Z in Hn21; lia|].
  fold n in Ex, Hmx. rewrite Ex. clear Ex.
  pose proof (digits2_pos_bounds mx) as Hmxb. rewrite Hdx in Hmxb.
  change (2 ^ (24 - 1))%Z with 8388608%Z in Hmxb.
  change (2 ^ 24)%Z with 16777216%Z in Hmxb.
  set (b := (- ex)%Z) in *.
  set (B := (2 ^ b)%Z) in *.
  assert (HB : (0 < B)%Z) by (apply Z.pow_pos_nonneg; lia).
  (* the exact product and its rounding *)
  unfold float_mul, SFmul. cbn [xorb].
  pose proof (digits2_pos_bounds (mx * ms)) as Hd.
  rewrite Pos2Z.inj_mul in Hd.
  set (d := Z.pos (digits2_pos (mx * ms))) in *.
  assert (Hd47 : (47 ≤ d ≤ 48)%Z).
  { split.
    - destruct (Z.le_gt_cases 47 d) as [|Hlt]; [done|].
      assert (2 ^ d ≤ 2 ^ 46)%Z by (apply Z.pow_le_mono_r; lia).
      change (2 ^ 46)%Z with 70368744177664%Z in *. nia.
    - destruct (Z.le_gt_cases d 48) as [|Hgt]; [done|].
      assert (2 ^ 48 ≤ 2 ^ (d - 1))%Z by (apply Z.pow_le_mono_r; lia).
      change (2 ^ 48)%Z with 281474976710656%Z in *. nia. }
  set (k := (d - 24)%Z).
  assert (Hkab : (k ≤ a + b - 2)%Z).
  { destruct (Z.le_gt_cases k (a + b - 2)) as [|Hgt]; [done|].
    assert (Hpow : (2 ^ (a - 2 + b + 24) ≤ 2 ^ (d - 1))%Z)
      by (apply Z.pow_le_mono_r; lia).
    rewrite !Z.pow_add_r in Hpow by lia. fold Q B in Hpow.
    change (2 ^ 24)%Z with 16777216%Z in Hpow.
    assert (Z.pos mx * Z.pos ms < Q * B * 16777216)%Z; [|lia].
    rewrite Hmx.
    replace (n * B * Z.pos ms)%Z with (n * Z.pos ms * B)%Z by ring.
    replace (Q * B * 16777216)%Z with (Q * 16777216 * B)%Z by ring.
    apply Z.mul_lt_mono_pos_r; [done|].
    apply Z.mul_lt_mono_nonneg; lia. }
  destruct (binary_round_aux_bracket false (mx * ms) (ex + es))
    as (mr & er & -> & Her & Hbracket).
  { cbn [Zdigits2]. fold d. lia. }
  { cbn [Zdigits2]. fold d. lia. }
  cbn [Zdigits2] in Her, Hbracket. fold d in Her, Hbracket.
  replace (Z.max (d - 24) 0) with k in Her, Hbracket by lia.
  set (E := (ex + es + k)%Z) in *.
  set (m2 := (Z.pos mr * 2 ^ (er - E))%Z) in *.
  set (g := (a + b - k)%Z).
  assert (HEg : (- E = g)%Z) by (subst E g a b; lia).
  set (G := (2 ^ g)%Z).
  assert (HG : (0 < G)%Z) by (apply Z.pow_pos_nonneg; lia).
  set (K := (2 ^ k)%Z) in *.
  assert (HK : (0 < K)%Z) by (apply Z.pow_pos_nonneg; lia).
  assert (HGK : (G * K = 2 ^ a * B)%Z).
  { subst G K B. rewrite <- !Z.pow_add_r by lia. f_equal. lia. }
  assert (HKQ : (K ≤ Q * B)%Z).
  { subst K Q B. rewrite <- Z.pow_add_r by lia. apply Z.pow_le_mono_r; lia. }
  pose proof (Z.mul_div_le m2 G HG) as Hfloor.
  pose proof (Z.mul_succ_div_gt m2 G HG) as Hceil.
  set (W := (m2 / G)%Z) in *.
  assert (Harea : (0 ≤ n * n * 2 ^ zoom)%Z)
    by (apply Z.mul_nonneg_nonneg; [apply Z.square_nonneg|lia]).
  pose proof (Z.sqrt_spec (n * n * 2 ^ zoom) Harea) as HF.
  pose proof (Z.sqrt_nonneg (n * n * 2 ^ zoom)) as HF0.
  assert (HF21 : (Z.sqrt (n * n * 2 ^ zoom) < 2 ^ 21)%Z).
  { apply Z.sqrt_lt_square; [done|done|].
    by change (2 ^ 21 * 2 ^ 21)%Z with (2 ^ 42)%Z. }
  set (F := Z.sqrt (n * n * 2 ^ zoom)) in *.
  destruct (size_bracket_arith n (Z.pos ms) (2 ^ a) B K G Q (2 ^ zoom) m2 W F)
    as (HW0 & HWF); try done; try lia.
  exists W. split; [|done].
  assert (HW31 : int_range W).
  { unfold int_range. change (2 ^ 21)%Z with 2097152%Z in HF21.
    change (2 ^ 31)%Z with 2147483648%Z. clear -HW0 HWF HF21. lia. }
  clearbody F. subst W G. rewrite <- HEg. apply float_to_int_floor; [done|lia|].
  by rewrite HEg.
Qed.

(** ** What both getters compute from the truncated size *)

Section Scaling.
Context `{L : Libm}.

(** At a scale that is a power of two the product is exact. *)
Lemma scaled_even zoom k n :
  zoomToScale zoom = pow2_float k → (0 ≤ k)%Z →
  (0 ≤ n < 2 ^ 24)%Z → (n * 2 ^ k < 2 ^ 31)%Z →
  float_to_int (float_mul (int_to_float n) (zoomToScale zoom))
  = Some (n * 2 ^ k)%Z.
Proof.
  intros Hscale Hk Hrange Hfit. rewrite Hscale.
  destruct n as [|p|p]; [done| |lia].
  destruct (int_to_float_exact p) as (m & e & -> & Hd & He & Hm); [lia|].
  assert (0 < 2 ^ k)%Z by (apply Z.pow_pos_nonneg; lia).
  assert (Hk31 : (k < 31)%Z).
  { destruct (Z.lt_ge_cases k 31) as [|Hge]; [done|].
    assert (2 ^ 31 ≤ 2 ^ k)%Z by (apply Z.pow_le_mono_r; lia). nia. }
  rewrite float_mul_pow2 by (done || lia).
  unfold float_to_int.
  assert (Hvalue : (if (0 <=? e + k)%Z then Z.pos m * 2 ^ (e + k)
                    else Z.pos m / 2 ^ (- (e + k)))%Z = (Z.pos p * 2 ^ k)%Z).
  { rewrite Hm. destruct (Z.leb_spec 0 (e + k)) as [Hpos|Hneg].
    - rewrite <- Z.mul_assoc, <- Z.pow_add_r by lia. f_equal. f_equal. lia.
    - replace (- e)%Z with (k + - (e + k))%Z at 1 by lia.
      rewrite Z.pow_add_r by lia. rewrite Z.mul_assoc.
      apply Z.div_mul. apply Z.pow_nonzero; lia. }
  rewrite Hvalue.
  rewrite bool_decide_eq_true_2; [done|]. unfold int_range. lia.
Qed.

(** Two zoom steps further the result is doubled, up to the fraction
    that truncation dropped. *)
Lemma scaled_twice zoom n W :
  doubles (zoomToScale zoom) (zoomToScale (zoom + 2)) = true →
  float_to_int (float_mul (int_to_float n) (zoomToScale zoom)) = Some W →
  (- 2 ^ 30 < W < 2 ^ 30)%Z →
  ∃ W', float_to_int (float_mul (int_to_float n) (zoomToScale (zoom + 2)))
        = Some W' ∧
        (-1 ≤ W' - 2 * W ≤ 1)%Z.
Proof.
  intros Hscale Hw HW. unfold doubles in Hscale.
  destruct (zoomToScale zoom) as [| | |[] ms es]; try done.
  destruct (zoomToScale (zoom + 2)) as [| | |[] ms2 es2]; try done.
  apply bool_decide_eq_true in Hscale as (-> & -> & Hes).
  rewrite float_mul_twice; [|by intros s m e Hx%int_to_float_exp|done].
  by apply float_to_int_twice.
Qed.

(** The result is within one of ⌊n · √2^zoom⌋. *)
Lemma scaled_bracket zoom n :
  (0 ≤ zoom)%Z →
  within_one_ulp (zoomToScale zoom) zoom = true →
  (0 ≤ n)%Z → (n * n * 2 ^ zoom < 2 ^ 42)%Z →
  ∃ W, float_to_int (float_mul (int_to_float n) (zoomToScale zoom)) = Some W ∧
       (floor_times_sqrt2_pow n 1 zoom - 1 ≤ W
        ≤ floor_times_sqrt2_pow n 1 zoom + 1)%Z.
Proof.
  intros Hzoom Hulp Hn0 Hsize.
  unfold floor_times_sqrt2_pow. rewrite Z.div_1_r.
  destruct (zoomToScale zoom) as [| | |[] ms es]; try done.
  destruct n as [|p|p]; [|by apply float_mul_bracket|lia].
  exists 0%Z. split; [done|].
  rewrite !Z.mul_0_l. change (Z.sqrt 0) with 0%Z. lia.
Qed.

(** C8 (amended): [getPageWidth] and [getPageHeight] drop the fraction of
    the page's width and height before they scale, so the scaled
    dimensions belong to the truncated sizes [w] and [h] and not to the
    page's own.  For a page in range whose truncated sizes are [w] and
    [h]: (a) at a zoom of zero or more where [zoomToScale] is within one
    unit in the last place of √2^zoom, and for non-negative sizes with
    w·√2^zoom and h·√2^zoom below 2^21, both getters return and their
    results are within one pixel of ⌊w·√2^zoom⌋ and ⌊h·√2^zoom⌋; (b) at an
    even zoom 2k where [zoomToScale] is the float 2^k, for sizes below
    2^24 whose products fit an [int], the results are ⌊w·√2^zoom⌋ = w·2^k
    and ⌊h·√2^zoom⌋ = h·2^k exactly; (c) when [zoomToScale (zoom + 2)] is
    twice [zoomToScale zoom] and [getPageWidth] returns [W] at [zoom],
    with |W| below 2^30, it returns at [zoom + 2] and the result is 2·W
    within one pixel. *)
Theorem page_size_truncates_then_scales
    (d : Doc fz_rect) (page zoom : Z) (rect : fz_rect) (w h : Z) :
  pageRects_at page d = Returned rect →
  float_to_int (float_sub (x1 rect) (x0 rect)) = Some w →
  float_to_int (float_sub (y1 rect) (y0 rect)) = Some h →
  ((0 ≤ zoom)%Z →
   within_one_ulp (zoomToScale zoom) zoom = true →
   (0 ≤ w)%Z → (0 ≤ h)%Z →
   (w * w * 2 ^ zoom < 2 ^ 42)%Z → (h * h * 2 ^ zoom < 2 ^ 42)%Z →
   ∃ W H,
     getPageWidth page zoom d = Returned (Some W) ∧
     getPageHeight page zoom d = Returned (Some H) ∧
     (floor_times_sqrt2_pow w 1 zoom - 1 ≤ W
      ≤ floor_times_sqrt2_pow w 1 zoom + 1)%Z ∧
     (floor_times_sqrt2_pow h 1 zoom - 1 ≤ H
      ≤ floor_times_sqrt2_pow h 1 zoom + 1)%Z) ∧
  (∀ k,
     zoom = (2 * k)%Z → (0 ≤ k)%Z →
     zoomToScale zoom = pow2_float k →
     (0 ≤ w < 2 ^ 24)%Z → (0 ≤ h < 2 ^ 24)%Z →
     (w * 2 ^ k < 2 ^ 31)%Z → (h * 2 ^ k < 2 ^ 31)%Z →
     getPageWidth page zoom d = Returned (Some (floor_times_sqrt2_pow w 1 zoom)) ∧
     getPageHeight page zoom d = Returned (Some (floor_times_sqrt2_pow h 1 zoom)) ∧
     floor_times_sqrt2_pow w 1 zoom = (w * 2 ^ k)%Z ∧
     floor_times_sqrt2_pow h 1 zoom = (h * 2 ^ k)%Z) ∧
  (∀ W,
     doubles (zoomToScale zoom) (zoomToScale (zoom + 2)) = true →
     getPageWidth page zoom d = Returned (Some W) →
     (- 2 ^ 30 < W < 2 ^ 30)%Z →
     ∃ W',
       getPageWidth page (zoom + 2) d = Returned (Some W') ∧
       (-1 ≤ W' - 2 * W ≤ 1)%Z).
Proof.
  intros Hrect Hw Hh. unfold getPageWidth, getPageHeight.
  rewrite Hrect, Hw, Hh. cbn [mbind option_bind].
  split; [|split].
  - intros Hzoom Hulp Hw0 Hh0 Hwsize Hhsize.
    destruct (scaled_bracket zoom w) as (W & -> & HW); [done..|].
    destruct (scaled_bracket zoom h) as (H & -> & HH); [done..|].
    by exists W, H.
  - intros k -> Hk Hscale Hwr Hhr Hwfit Hhfit.
    rewrite !floor_times_sqrt2_pow_even by lia.
    by rewrite (scaled_even (2 * k) k w), (scaled_even (2 * k) k h).
  - intros W Hscale [= HW] Hrange.
    destruct (scaled_twice zoom w W) as (W' & -> & HW'); [done..|].
    by exists W'.
Qed.

End Scaling.

(** ** The concrete C library *)

(** With a correctly rounded [pow], and up to zoom 40, the scale is
    within one unit in the last place of √2^zoom, two zoom steps double
    it, and at an even zoom it is the power of two itself. *)
Lemma exactLibm_scales zoom :
  (0 ≤ zoom ≤ 40)%Z →
  within_one_ulp (zoomToScale (L := exactLibm) zoom) zoom = true ∧
  doubles (zoomToScale (L := exactLibm) zoom)
          (zoomToScale (L := exactLibm) (zoom + 2)) = true ∧
  (Z.even zoom = true →
   zoomToScale (L := exactLibm) zoom = pow2_float (zoom / 2)).
Proof.
  intros Hzoom.
  assert (∃ n : nat, (n ≤ 40)%nat ∧ zoom = Z.of_nat n) as (n & Hn & ->)
    by (exists (Z.to_nat zoom); lia).
  clear Hzoom.
  do 41 (destruct n as [|n];
         [vm_compute; split; [done|split; [done|by intros [=]|| done]]|]).
  lia.
Qed.

(** The 13860 by 9800 page at zoom 1 and 3, and the A4 page at zoom 4. *)
Lemma page_size_truncates_then_scales_witness :
  (∃ W H,
     getPageWidth (L := exactLibm) 1 1 sheets = Returned (Some W) ∧
     getPageHeight (L := exactLibm) 1 1 sheets = Returned (Some H) ∧
     (floor_times_sqrt2_pow 13860 1 1 - 1 ≤ W
      ≤ floor_times_sqrt2_pow 13860 1 1 + 1)%Z ∧
     (floor_times_sqrt2_pow 9800 1 1 - 1 ≤ H
      ≤ floor_times_sqrt2_pow 9800 1 1 + 1)%Z) ∧
  (getPageWidth (L := exactLibm) 0 4 sheets
   = Returned (Some (floor_times_sqrt2_pow 595 1 4)) ∧
   getPageHeight (L := exactLibm) 0 4 sheets
   = Returned (Some (floor_times_sqrt2_pow 841 1 4)) ∧
   floor_times_sqrt2_pow 595 1 4 = (595 * 2 ^ 2)%Z ∧
   floor_times_sqrt2_pow 841 1 4 = (841 * 2 ^ 2)%Z) ∧
  (∃ W',
     getPageWidth (L := exactLibm) 1 3 sheets = Returned (Some W') ∧
     (-1 ≤ W' - 2 * 19601 ≤ 1)%Z).
Proof.
  destruct (page_size_truncates_then_scales (L := exactLibm)
              sheets 1 1 poster 13860 9800) as (Hnear & _ & Hlaw);
    [vm_compute; reflexivity..|].
  destruct (page_size_truncates_then_scales (L := exactLibm)
              sheets 0 4 a4 595 841) as (_ & Heven & _);
    [vm_compute; reflexivity..|].
  split; [|split].
  - apply Hnear; [lia|vm_compute; reflexivity|lia|lia|
                  vm_compute; reflexivity|vm_compute; reflexivity].
  - apply (Heven 2%Z); [reflexivity|lia|vm_compute; reflexivity|lia|lia|
                        vm_compute; reflexivity|vm_compute; reflexivity].
  - apply (Hlaw 19601%Z); [vm_compute; reflexivity|vm_compute; reflexivity|lia].
Defined.

(** C8, as stated, fails: the A4 page, 595.276 by 841.89, at zoom 4 has
    the scaled dimensions 2380 by 3364, those of 595 by 841, where
    ⌊page.width · √2^4⌋ is 2381 and ⌊page.height · √2^4⌋ is 3367.  And at
    zoom 1 the page that is 13860 wide has the scaled width 19601, one
    more than ⌊13860 · √2⌋. *)
Lemma getPageWidth_truncates_first_counterexample :
  getPageWidth (L := exactLibm) 0 4 sheets = Returned (Some 2380%Z) ∧
  specPageWidth a4 4 = Some 2381%Z ∧
  getPageHeight (L := exactLibm) 0 4 sheets = Returned (Some 3364%Z) ∧
  specPageHeight a4 4 = Some 3367%Z ∧
  getPageWidth (L := exactLibm) 1 1 sheets = Returned (Some 19601%Z) ∧
  specPageWidth poster 1 = Some 19600%Z ∧
  getPageWidth (L := exactLibm) 0 4 sheets ≠ Returned (specPageWidth a4 4) ∧
  getPageHeight (L := exactLibm) 0 4 sheets ≠ Returned (specPageHeight a4 4).
Proof.
  split_and!; try (vm_compute; reflexivity);
    intros Hsame; vm_compute in Hsame; discriminate Hsame.
Qed.

End PageSizeFacts.
